(** * Conduit: Go-style channels over a mutex and two condition variables

    A shallow embedding of [native/src/conduit_ffi.c].

    - A [size_t] is a [Z] in the range [0, 2^64); additions and subtractions
      are written with their wrap-around ([wrap]).
    - A [lean_object *] is an [option V]: [None] is [NULL], [Some v] is a live
      object [v].  The payload type [V] is opaque to the channel.
    - The [buffer] array is a list; a slot is read with the list lookup and
      written with the list insert.  Reading outside the array is undefined
      behaviour in C; the invariant [chan_wf] keeps every index in bounds
      ([chan_wf_head_in_bounds], [chan_wf_tail_in_bounds]), and the model
      reads [NULL] and writes nothing out of range.
    - Every function body runs between [pthread_mutex_lock] and
      [pthread_mutex_unlock]/[pthread_cond_wait], so the code between two such
      points is one atomic transition of the channel.  A transition returns
      the new channel, the effects it performed on the outside world
      ([effect]: condition-variable signals and [lean_dec] calls) and an
      [outcome]: the call returned, or the thread is parked in
      [pthread_cond_wait].  A parked thread re-enters at the head of its
      [while] loop when it is woken. *)

From Stdlib Require Import ZArith Lia Bool.
From stdpp Require Import base list strings.

Local Open Scope Z_scope.

(** ** Machine integers *)

Definition SIZE_MAX_plus_1 : Z := 2 ^ 64.

Definition wrap (x : Z) : Z := x mod SIZE_MAX_plus_1.

Definition size_t_range (x : Z) : Prop := 0 ≤ x < SIZE_MAX_plus_1.

(** ** Effects and outcomes *)

Inductive cond : Set := not_empty | not_full.

Inductive outcome (R : Type) : Type :=
  | Done (r : R)            (* the call returned [r] *)
  | Blocked (c : cond).     (* parked in [pthread_cond_wait (c, mutex)] *)
Arguments Done {R} r.
Arguments Blocked {R} c.

(** [TryResult]: constructor 0 is [.ok value], 1 is [.empty], 2 is [.closed]. *)
Inductive try_result (P : Type) : Type :=
  | TryOk (value : P)
  | TryEmpty
  | TryClosed.
Arguments TryOk {P} value.
Arguments TryEmpty {P}.
Arguments TryClosed {P}.

(** The [UInt8] returned by [conduit_channel_try_send]. *)
Definition TRY_SEND_OK : Z := 0.
Definition TRY_SEND_WOULD_BLOCK : Z := 1.
Definition TRY_SEND_CLOSED : Z := 2.

(** The [IO] result of a constructor. *)
Inductive io_result (A : Type) : Type :=
  | IoOk (a : A)
  | IoError (msg : string).
Arguments IoOk {A} a.
Arguments IoError {A} msg.

Section Channel.

Context {V : Type}.

(** [lean_object *] *)
Definition ptr : Type := option V.

Inductive effect : Type :=
  | Signal (c : cond)       (* pthread_cond_signal *)
  | Broadcast (c : cond)    (* pthread_cond_broadcast *)
  | LeanDec (v : V).        (* lean_dec: the channel gives the value up *)

(** ** The channel structure *)

Record conduit_channel_t : Type := mkChannel {
  buffer : list ptr;
  capacity : Z;             (* 0 = unbuffered *)
  head : Z;                 (* read position *)
  tail : Z;                 (* write position *)
  count : Z;                (* current item count *)
  pending_value : ptr;
  pending_ready : bool;     (* true if a sender is waiting *)
  pending_taken : bool;     (* true if receiver took the value *)
  closed : bool
}.

Definition set_buffer (b : list ptr) (ch : conduit_channel_t) :=
  mkChannel b (capacity ch) (head ch) (tail ch) (count ch)
            (pending_value ch) (pending_ready ch) (pending_taken ch) (closed ch).
Definition set_head (x : Z) (ch : conduit_channel_t) :=
  mkChannel (buffer ch) (capacity ch) x (tail ch) (count ch)
            (pending_value ch) (pending_ready ch) (pending_taken ch) (closed ch).
Definition set_tail (x : Z) (ch : conduit_channel_t) :=
  mkChannel (buffer ch) (capacity ch) (head ch) x (count ch)
            (pending_value ch) (pending_ready ch) (pending_taken ch) (closed ch).
Definition set_count (x : Z) (ch : conduit_channel_t) :=
  mkChannel (buffer ch) (capacity ch) (head ch) (tail ch) x
            (pending_value ch) (pending_ready ch) (pending_taken ch) (closed ch).
Definition set_pending (p : ptr) (ready taken : bool) (ch : conduit_channel_t) :=
  mkChannel (buffer ch) (capacity ch) (head ch) (tail ch) (count ch)
            p ready taken (closed ch).
Definition set_closed (b : bool) (ch : conduit_channel_t) :=
  mkChannel (buffer ch) (capacity ch) (head ch) (tail ch) (count ch)
            (pending_value ch) (pending_ready ch) (pending_taken ch) b.

(** [ch->buffer[i]] *)
Definition buffer_get (ch : conduit_channel_t) (i : Z) : ptr :=
  default None (buffer ch !! Z.to_nat i).

(** [ch->buffer[i] = p] *)
Definition buffer_set (i : Z) (p : ptr) (ch : conduit_channel_t) :=
  set_buffer (<[Z.to_nat i := p]> (buffer ch)) ch.

(** ** Construction *)

(** Which of the resources a constructor asks for can be obtained. *)
Record resources : Set := mkResources {
  malloc_ok : bool;         (* malloc (sizeof (conduit_channel_t)) *)
  calloc_ok : bool;         (* calloc (capacity, sizeof (lean_object * )) *)
  mutex_ok : bool;          (* pthread_mutex_init *)
  not_empty_ok : bool;      (* pthread_cond_init (&ch->not_empty) *)
  not_full_ok : bool        (* pthread_cond_init (&ch->not_full) *)
}.

Definition all_ok : resources := mkResources true true true true true.

Definition conduit_channel_new (r : resources) : io_result conduit_channel_t :=
  if negb (malloc_ok r) then IoError "Failed to allocate channel"
  else if negb (mutex_ok r) then IoError "Failed to initialize mutex"
  else if negb (not_empty_ok r) then IoError "Failed to initialize condition variable"
  else if negb (not_full_ok r) then IoError "Failed to initialize condition variable"
  else IoOk (mkChannel [] 0 0 0 0 None false false false).

(** [capacity] is the [size_t] that [lean_usize_of_nat] makes of the [Nat]
    argument. *)
Definition conduit_channel_new_buffered (capacity : Z) (r : resources)
  : io_result conduit_channel_t :=
  if capacity =? 0 then conduit_channel_new r
  else if negb (malloc_ok r) then IoError "Failed to allocate channel"
  else if negb (calloc_ok r) then IoError "Failed to allocate channel buffer"
  else if negb (mutex_ok r) then IoError "Failed to initialize mutex"
  else if negb (not_empty_ok r) then IoError "Failed to initialize condition variable"
  else if negb (not_full_ok r) then IoError "Failed to initialize condition variable"
  else IoOk (mkChannel (replicate (Z.to_nat capacity) None) capacity 0 0 0
                       None false false false).

(** ** The circular buffer *)

(** [buffer[tail] = value; tail = (tail + 1) % capacity; count++] *)
Definition enqueue (value : V) (ch : conduit_channel_t) : conduit_channel_t :=
  let ch1 := buffer_set (tail ch) (Some value) ch in
  let ch2 := set_tail (wrap (tail ch1 + 1) mod capacity ch1) ch1 in
  set_count (wrap (count ch2 + 1)) ch2.

(** [value = buffer[head]; buffer[head] = NULL; head = (head + 1) % capacity;
    count--] *)
Definition dequeue (ch : conduit_channel_t) : ptr * conduit_channel_t :=
  let value := buffer_get ch (head ch) in
  let ch1 := buffer_set (head ch) None ch in
  let ch2 := set_head (wrap (head ch1 + 1) mod capacity ch1) ch1 in
  (value, set_count (wrap (count ch2 - 1)) ch2).

(** One atomic transition: new channel, effects, outcome. *)
Definition transition (R : Type) : Type :=
  conduit_channel_t * list effect * outcome R.

(** ** Blocking send *)

(** The unbuffered wait loop of [conduit_channel_send] and what follows it:
    [while (!pending_taken && !closed) pthread_cond_wait (&not_full, ...)]. *)
Definition send_unbuffered_wait (value : V) (ch : conduit_channel_t)
  : transition bool :=
  if negb (pending_taken ch) && negb (closed ch) then (ch, [], Blocked not_full)
  else
    let success := pending_taken ch in
    let ch' := set_pending None false false ch in
    (ch', if success then [] else [LeanDec value], Done success).

(** The buffered wait loop of [conduit_channel_send] and what follows it:
    [while (count >= capacity && !closed) pthread_cond_wait (&not_full, ...)]. *)
Definition send_buffered_wait (value : V) (ch : conduit_channel_t)
  : transition bool :=
  if (capacity ch <=? count ch) && negb (closed ch) then (ch, [], Blocked not_full)
  else if closed ch then (ch, [LeanDec value], Done false)
  else (enqueue value ch, [Signal not_empty], Done true).

(** [conduit_channel_send], from its entry. *)
Definition conduit_channel_send (value : V) (ch : conduit_channel_t)
  : transition bool :=
  if closed ch then (ch, [LeanDec value], Done false)
  else if capacity ch =? 0 then
    let ch1 := set_pending (Some value) true false ch in
    let '(ch2, effs, out) := send_unbuffered_wait value ch1 in
    (ch2, Signal not_empty :: effs, out)
  else send_buffered_wait value ch.

(** [conduit_channel_send], woken inside its [pthread_cond_wait]. *)
Definition conduit_channel_send_resume (value : V) (ch : conduit_channel_t)
  : transition bool :=
  if capacity ch =? 0 then send_unbuffered_wait value ch
  else send_buffered_wait value ch.

(** ** Blocking receive *)

(** The result is Lean's [Option α]: [None] is [none], [Some p] is [some p]. *)
Definition recv_unbuffered_wait (ch : conduit_channel_t)
  : transition (option ptr) :=
  if negb (pending_ready ch) && negb (closed ch) then (ch, [], Blocked not_empty)
  else if pending_ready ch && negb (pending_taken ch) then
    let value := pending_value ch in
    let ch' := set_pending (pending_value ch) false true ch in
    (ch', [Signal not_full], Done (Some value))
  else (ch, [], Done None).

Definition recv_buffered_wait (ch : conduit_channel_t)
  : transition (option ptr) :=
  if (count ch =? 0) && negb (closed ch) then (ch, [], Blocked not_empty)
  else if count ch =? 0 then (ch, [], Done None)
  else
    let '(value, ch') := dequeue ch in
    (ch', [Signal not_full], Done (Some value)).

(** [conduit_channel_recv]: the entry and the re-entry after a wake-up run
    the same code, the head of the [while] loop. *)
Definition conduit_channel_recv (ch : conduit_channel_t)
  : transition (option ptr) :=
  if capacity ch =? 0 then recv_unbuffered_wait ch
  else recv_buffered_wait ch.

(** ** Non-blocking variants: they never park, so they return the result
    itself. *)

Definition conduit_channel_try_send (value : V) (ch : conduit_channel_t)
  : conduit_channel_t * list effect * Z :=
  if closed ch then (ch, [LeanDec value], TRY_SEND_CLOSED)
  else if capacity ch =? 0 then (ch, [LeanDec value], TRY_SEND_WOULD_BLOCK)
  else if capacity ch <=? count ch then (ch, [LeanDec value], TRY_SEND_WOULD_BLOCK)
  else (enqueue value ch, [Signal not_empty], TRY_SEND_OK).

Definition conduit_channel_try_recv (ch : conduit_channel_t)
  : conduit_channel_t * list effect * try_result ptr :=
  if capacity ch =? 0 then
    if pending_ready ch && negb (pending_taken ch) then
      let value := pending_value ch in
      (set_pending (pending_value ch) false true ch, [Signal not_full], TryOk value)
    else if closed ch then (ch, [], TryClosed)
    else (ch, [], TryEmpty)
  else
    if count ch =? 0 then
      if closed ch then (ch, [], TryClosed) else (ch, [], TryEmpty)
    else
      let '(value, ch') := dequeue ch in
      (ch', [Signal not_full], TryOk value).

(** ** Close and introspection *)

Definition conduit_channel_close (ch : conduit_channel_t)
  : conduit_channel_t * list effect * unit :=
  if negb (closed ch) then
    (set_closed true ch, [Broadcast not_empty; Broadcast not_full], tt)
  else (ch, [], tt).

Definition conduit_channel_is_closed (ch : conduit_channel_t) : bool := closed ch.

Definition conduit_channel_len (ch : conduit_channel_t) : Z := count ch.

Definition conduit_channel_capacity (ch : conduit_channel_t) : Z := capacity ch.

End Channel.

Arguments conduit_channel_t V : clear implicits.
Arguments effect V : clear implicits.
Arguments ptr V : clear implicits.

(** ** Select *)

Section Select.

Context {V : Type}.

(** A [Channel] object of the cases array is a reference to a shared
    [conduit_channel_t]; the heap gives the structure behind each reference. *)
Definition handle : Set := nat.
Definition heap : Type := handle → conduit_channel_t V.

(** The body of the [for] loop of [conduit_select_poll]: is the case ready? *)
Definition case_ready (ch : conduit_channel_t V) (is_send : bool) : bool :=
  if is_send then
    if negb (closed ch) then
      if (0 <? capacity ch) && (count ch <? capacity ch) then true else false
    else false
  else
    if (0 <? count ch) || (pending_ready ch && negb (pending_taken ch)) || closed ch
    then true else false.

(** [for (i = ...; i < n; i++)] over the cases that remain. *)
Fixpoint select_poll_from (i : nat) (h : heap) (cases : list (handle * bool))
  : option nat :=
  match cases with
  | [] => None
  | (ch_obj, is_send) :: rest =>
      if case_ready (h ch_obj) is_send then Some i
      else select_poll_from (S i) h rest
  end.

Definition conduit_select_poll (h : heap) (cases : list (handle * bool))
  : option nat :=
  select_poll_from 0 h cases.

(** [conduit_select_wait] takes and releases the mutex of one channel at a
    time: once for each case in its call of [conduit_select_poll], then once
    for each case in its own pass over the closed flags.  Other threads run
    in between, so every [pthread_mutex_lock] may find the channels in
    another state. *)
Inductive pass : Set :=
  | PollPass        (* the [for] loop of [conduit_select_poll] *)
  | ClosedPass.     (* the [for] loop that computes [all_closed] *)

(** [seen k p j] is the heap at the moment the thread locks the channel of
    case [j] in pass [p] of the iteration that follows its [k]-th
    [nanosleep]. *)
Definition sightings : Type := nat → pass → nat → heap.

(** [conduit_select_poll] as [conduit_select_wait] runs it: the lock of case
    [i] finds the heap [seen i]. *)
Fixpoint select_poll_seen (i : nat) (seen : nat → heap)
    (cases : list (handle * bool)) : option nat :=
  match cases with
  | [] => None
  | (ch_obj, is_send) :: rest =>
      if case_ready (seen i ch_obj) is_send then Some i
      else select_poll_seen (S i) seen rest
  end.

(** The inner loop of [conduit_select_wait]: [all_closed] stays true until a
    case with an open channel is met, and the loop stops there. *)
Fixpoint all_closed (i : nat) (seen : nat → heap)
    (cases : list (handle * bool)) : bool :=
  match cases with
  | [] => true
  | (ch_obj, _) :: rest =>
      if negb (closed (seen i ch_obj)) then false
      else all_closed (S i) seen rest
  end.

Definition poll_interval : Z := 1.

(** The [while] loop of [conduit_select_wait].  [naps] counts the calls of
    [nanosleep] so far; the function gives the result together with that
    count, or [None] when [fuel] iterations were not enough for the loop to
    end. *)
Fixpoint select_wait_loop (fuel : nat) (seen : sightings)
    (cases : list (handle * bool)) (timeout_ms elapsed : Z) (naps : nat)
  : option (option nat * nat) :=
  match fuel with
  | O => None
  | S fuel' =>
      if (timeout_ms =? 0) || (elapsed <? timeout_ms) then
        match select_poll_seen 0 (seen naps PollPass) cases with
        | Some i => Some (Some i, naps)
        | None =>
            if all_closed 0 (seen naps ClosedPass) cases then Some (None, naps)
            else select_wait_loop fuel' seen cases timeout_ms
                                  (wrap (elapsed + poll_interval)) (S naps)
        end
      else Some (None, naps)
  end.

Definition conduit_select_wait (fuel : nat) (seen : sightings)
    (cases : list (handle * bool)) (timeout_ms : Z)
  : option (option nat * nat) :=
  select_wait_loop fuel seen cases timeout_ms 0 0.

End Select.

(** ** Threads sharing one channel *)

Section Threads.

Context {V : Type}.

(** A call a thread makes on the channel. *)
Inductive op : Type :=
  | OpSend (value : V)
  | OpRecv
  | OpTrySend (value : V)
  | OpTryRecv
  | OpClose.

(** What a call returned. *)
Inductive op_result : Type :=
  | RSend (b : bool)
  | RRecv (r : option (ptr V))
  | RTrySend (code : Z)
  | RTryRecv (r : try_result (ptr V))
  | RClose.

(** Where a thread is: between two calls, or parked in the
    [pthread_cond_wait] of a blocking call. *)
Inductive activity : Type :=
  | Idle
  | InSend (value : V)
  | InRecv.

Record thread : Type := mkThread {
  where_ : activity;
  program : list op          (* the calls still to make *)
}.

Definition step_result : Type :=
  conduit_channel_t V * list (effect V) * thread * option op_result.

Definition settle {R : Type} (ret : R → op_result) (parked : activity)
    (rest : list op) (tr : transition (V:=V) R) : step_result :=
  let '(ch', effs, out) := tr in
  match out with
  | Done r => (ch', effs, mkThread Idle rest, Some (ret r))
  | Blocked _ => (ch', effs, mkThread parked rest, None)
  end.

(** The next atomic transition of a thread: from taking the mutex to
    releasing it (by [pthread_mutex_unlock] or by [pthread_cond_wait]).
    [None]: the thread has finished. *)
Definition thread_step (ch : conduit_channel_t V) (t : thread)
  : option step_result :=
  match where_ t with
  | InSend value =>
      Some (settle RSend (InSend value) (program t)
                   (conduit_channel_send_resume value ch))
  | InRecv =>
      Some (settle RRecv InRecv (program t) (conduit_channel_recv ch))
  | Idle =>
      match program t with
      | [] => None
      | OpSend value :: rest =>
          Some (settle RSend (InSend value) rest (conduit_channel_send value ch))
      | OpRecv :: rest =>
          Some (settle RRecv InRecv rest (conduit_channel_recv ch))
      | OpTrySend value :: rest =>
          let '(ch', effs, code) := conduit_channel_try_send value ch in
          Some (ch', effs, mkThread Idle rest, Some (RTrySend code))
      | OpTryRecv :: rest =>
          let '(ch', effs, r) := conduit_channel_try_recv ch in
          Some (ch', effs, mkThread Idle rest, Some (RTryRecv r))
      | OpClose :: rest =>
          let '(ch', effs, _) := conduit_channel_close ch in
          Some (ch', effs, mkThread Idle rest, Some RClose)
      end
  end.

(** One entry of the trace: which thread moved, the effects of the
    transition and the result, when a call returned. *)
Definition trace_entry : Type := nat * list (effect V) * option op_result.

Record system : Type := mkSystem {
  chan : conduit_channel_t V;
  threads : list thread;
  trace : list trace_entry
}.

(** The scheduler lets thread [i] run its next transition.  A parked thread
    may be picked at any time (POSIX allows spurious wake-ups); it then
    re-checks its loop condition and parks again when it still holds.  A
    thread that has finished, or an [i] that names no thread, changes
    nothing. *)
Definition sched_step (i : nat) (s : system) : system :=
  match threads s !! i with
  | None => s
  | Some t =>
      match thread_step (chan s) t with
      | None => s
      | Some (ch', effs, t', r) =>
          mkSystem ch' (<[i := t']> (threads s)) (trace s ++ [(i, effs, r)])
      end
  end.

(** An interleaving is the list of the scheduler's choices. *)
Definition run (schedule : list nat) (s : system) : system :=
  foldl (λ s i, sched_step i s) s schedule.

Definition start (ch : conduit_channel_t V) (programs : list (list op)) : system :=
  mkSystem ch (mkThread Idle <$> programs) [].

(** The values the receives of a trace returned, in order. *)
Definition received_of (r : option op_result) : list (ptr V) :=
  match r with
  | Some (RRecv (Some p)) => [p]
  | Some (RTryRecv (TryOk p)) => [p]
  | _ => []
  end.

Definition received (tr : list trace_entry) : list (ptr V) :=
  tr ≫= (λ e, received_of e.2).

(** The values a program still has to send. *)
Definition op_values (o : op) : list V :=
  match o with
  | OpSend v => [v]
  | OpTrySend v => [v]
  | _ => []
  end.

Definition program_values (p : list op) : list V := p ≫= op_values.

(** A single thread making blocking calls one after the other: a call that
    parks never returns, since no other thread is there to wake it, so the
    sequence has a result only if every call returns at once. *)
Fixpoint send_all (values : list V) (ch : conduit_channel_t V)
  : option (list bool * conduit_channel_t V) :=
  match values with
  | [] => Some ([], ch)
  | v :: rest =>
      match conduit_channel_send v ch with
      | (ch', _, Done b) =>
          match send_all rest ch' with
          | Some (bs, ch'') => Some (b :: bs, ch'')
          | None => None
          end
      | (_, _, Blocked _) => None
      end
  end.

Fixpoint recv_n (n : nat) (ch : conduit_channel_t V)
  : option (list (option (ptr V)) * conduit_channel_t V) :=
  match n with
  | O => Some ([], ch)
  | S n' =>
      match conduit_channel_recv ch with
      | (ch', _, Done r) =>
          match recv_n n' ch' with
          | Some (rs, ch'') => Some (r :: rs, ch'')
          | None => None
          end
      | (_, _, Blocked _) => None
      end
  end.

End Threads.

Arguments op V : clear implicits.
Arguments op_result V : clear implicits.
Arguments thread V : clear implicits.
Arguments system V : clear implicits.

(** ** Invariants and abstractions *)

Section Invariants.

Context {V : Type}.
Implicit Types ch : conduit_channel_t V.

(** The occupancy bound of the data model. *)
Definition count_inv ch : Prop := 0 ≤ count ch ≤ capacity ch.

(** The representation invariant of a channel: the buffer has [capacity]
    slots, the indices stay inside it, [tail] is [count] slots after [head],
    and only an unbuffered channel uses the pending slot. *)
Record chan_wf ch : Prop := mkWf {
  wf_capacity : size_t_range (capacity ch);
  wf_buffer : Z.of_nat (length (buffer ch)) = capacity ch;
  wf_count : count_inv ch;
  wf_head : 0 < capacity ch → 0 ≤ head ch < capacity ch;
  wf_tail : 0 < capacity ch → tail ch = (head ch + count ch) mod capacity ch;
  wf_pending : 0 < capacity ch → pending_ready ch = false
}.

(** The queue a buffered channel holds, oldest value first: the [count]
    slots from [head] on, around the end of the array. *)
Definition contents ch : list (ptr V) :=
  (λ i : Z, buffer_get ch ((head ch + i) mod capacity ch))
    <$> seqZ 0 (count ch).

(** What one atomic transition can do to the channel, with the guard the
    code checks before it does so. *)
Inductive chan_move ch : conduit_channel_t V → Prop :=
  | move_none : chan_move ch ch
  | move_enqueue value :
      count ch < capacity ch → chan_move ch (enqueue value ch)
  | move_dequeue :
      capacity ch ≠ 0 → count ch ≠ 0 → chan_move ch (dequeue ch).2
  | move_pending p ready taken :
      capacity ch = 0 → chan_move ch (set_pending p ready taken ch)
  | move_close : chan_move ch (set_closed true ch).

(** A sender has deposited a value that no receiver has claimed yet. *)
Definition unclaimed ch : bool := pending_ready ch && negb (pending_taken ch).

(** The value waiting in the pending slot, if there is one. *)
Definition unclaimed_value ch : list (ptr V) :=
  if unclaimed ch then [pending_value ch] else [].

(** Readiness of a select case, in the words of the specification. *)
Definition send_ready_spec ch : Prop :=
  closed ch = false ∧ capacity ch ≠ 0 ∧ count ch < capacity ch.

Definition recv_ready_spec ch : Prop :=
  0 < count ch
  ∨ (capacity ch = 0 ∧ pending_ready ch = true ∧ pending_taken ch = false)
  ∨ closed ch = true.

Definition ready_spec ch (is_send : bool) : Prop :=
  if is_send then send_ready_spec ch else recv_ready_spec ch.

(** The values the threads of a pool still have to send. *)
Definition pool_values (ts : list (thread V)) : list V :=
  ts ≫= (λ t, program_values (program t)).

(** Every value that is still to be delivered or has been delivered: the
    values to send, the value waiting in the pending slot and the values the
    receives returned. *)
Definition ledger (s : system V) : list (ptr V) :=
  (Some <$> pool_values (threads s))
  ++ unclaimed_value (chan s) ++ received (trace s).

(** Every channel of the list is closed when the thread looks at it. *)
Definition every_channel_closed (seen : nat → heap (V:=V))
    (cases : list (handle * bool)) : Prop :=
  ∀ j c, cases !! j = Some c → closed (seen j c.1) = true.

(** A channel of the list is open when the thread looks at it. *)
Definition some_channel_open (seen : nat → heap (V:=V))
    (cases : list (handle * bool)) : Prop :=
  ∃ j c, cases !! j = Some c ∧ closed (seen j c.1) = false.

(** Case [j] of the list is ready, in the words of the specification, at
    the moment the thread looks at its channel. *)
Definition ready_when_seen (seen : nat → heap (V:=V))
    (cases : list (handle * bool)) (j : nat) : Prop :=
  ∃ c, cases !! j = Some c ∧ ready_spec (seen j c.1) c.2.

(** Case [i] is the first one of the list found ready. *)
Definition first_ready (seen : nat → heap (V:=V))
    (cases : list (handle * bool)) (i : nat) : Prop :=
  ready_when_seen seen cases i
  ∧ ∀ j, (j < i)%nat → ¬ ready_when_seen seen cases j.

Definition none_ready (seen : nat → heap (V:=V))
    (cases : list (handle * bool)) : Prop :=
  ∀ j, ¬ ready_when_seen seen cases j.

(** Iteration [k] of [conduit_select_wait] is quiet: no case is ready when
    the poll looks at it, and not every channel is closed when the second
    pass looks at it.  The thread goes to sleep. *)
Definition quiet (seen : sightings (V:=V)) (k : nat)
    (cases : list (handle * bool)) : Prop :=
  none_ready (seen k PollPass) cases
  ∧ some_channel_open (seen k ClosedPass) cases.

(** Nothing happens to the channels during a pass: every lock finds [h]. *)
Definition steady (seen : nat → heap (V:=V)) (h : heap (V:=V)) : Prop :=
  ∀ j ch_obj, seen j ch_obj = h ch_obj.

End Invariants.

Arguments chan_wf {V} ch.
Arguments chan_move {V} ch _.

(** ** Destruction *)

Section Finalizer.

Context {V : Type}.

(** What the finalizer does to the outside world, in order. *)
Inductive teardown : Type :=
  | DecRef (p : ptr V)          (* lean_dec (p) *)
  | FreeBuffer                  (* free (ch->buffer) *)
  | DestroyMutex                (* pthread_mutex_destroy *)
  | DestroyCond (c : cond)      (* pthread_cond_destroy *)
  | FreeChannel.                (* free (ch) *)

(** The loop of [conduit_channel_finalizer]:
    [while (count > 0) { lean_dec (buffer[head]); head = (head + 1) % capacity;
    count--; }].  It gives the pointers handed to [lean_dec], in order, and
    the channel it leaves, or [None] when [fuel] iterations were not enough
    for the loop to end. *)
Fixpoint finalizer_drain (fuel : nat) (ch : conduit_channel_t V)
  : option (list (ptr V) * conduit_channel_t V) :=
  if 0 <? count ch then
    match fuel with
    | O => None
    | S fuel' =>
        let p := buffer_get ch (head ch) in
        let ch1 := set_head (wrap (head ch + 1) mod capacity ch) ch in
        let ch2 := set_count (wrap (count ch1 - 1)) ch1 in
        match finalizer_drain fuel' ch2 with
        | Some (ps, ch') => Some (p :: ps, ch')
        | None => None
        end
    end
  else Some ([], ch).

(** [conduit_channel_finalizer].  The argument is [None] for a null pointer.
    [ch->buffer] is null exactly when the model's buffer is the empty list:
    [calloc] is only asked for one slot or more. *)
Definition conduit_channel_finalizer (fuel : nat)
    (ptr_ : option (conduit_channel_t V)) : option (list teardown) :=
  match ptr_ with
  | None => Some []
  | Some ch =>
      let drained :=
        match buffer ch with
        | [] => Some ([], ch)
        | _ :: _ =>
            match finalizer_drain fuel ch with
            | Some (ps, ch') => Some ((DecRef <$> ps) ++ [FreeBuffer], ch')
            | None => None
            end
        end in
      match drained with
      | None => None
      | Some (out, ch') =>
          let pending :=
            match pending_value ch' with
            | Some v => [DecRef (Some v)]
            | None => []
            end in
          Some (out ++ pending
                ++ [DestroyMutex; DestroyCond not_empty; DestroyCond not_full;
                    FreeChannel])
      end
  end.

End Finalizer.

Arguments teardown V : clear implicits.

(** ** What the constructors acquire and give back *)

Inductive resource : Set :=
  | RChannel        (* malloc (sizeof (conduit_channel_t)) ... free (ch) *)
  | RBuffer         (* calloc (capacity, ...) ... free (ch->buffer) *)
  | RMutex          (* pthread_mutex_init ... pthread_mutex_destroy *)
  | RNotEmpty       (* pthread_cond_init (&ch->not_empty) ... destroy *)
  | RNotFull.       (* pthread_cond_init (&ch->not_full) ... destroy *)

Global Instance resource_eq_dec : EqDecision resource.
Proof. solve_decision. Defined.

Inductive res_event : Set :=
  | Acquire (x : resource)
  | Dispose (x : resource).

(** [conduit_channel_new], followed for the resources it obtains and the
    ones it gives back on its error paths.  An initialisation that fails
    obtains nothing. *)
Definition conduit_channel_new_events (r : resources) : list res_event :=
  if negb (malloc_ok r) then []
  else Acquire RChannel ::
    if negb (mutex_ok r) then [Dispose RChannel]
    else Acquire RMutex ::
      if negb (not_empty_ok r) then [Dispose RMutex; Dispose RChannel]
      else Acquire RNotEmpty ::
        if negb (not_full_ok r)
        then [Dispose RNotEmpty; Dispose RMutex; Dispose RChannel]
        else [Acquire RNotFull].

(** [conduit_channel_new_buffered], in the same way. *)
Definition conduit_channel_new_buffered_events (capacity : Z) (r : resources)
  : list res_event :=
  if capacity =? 0 then conduit_channel_new_events r
  else if negb (malloc_ok r) then []
  else Acquire RChannel ::
    if negb (calloc_ok r) then [Dispose RChannel]
    else Acquire RBuffer ::
      if negb (mutex_ok r) then [Dispose RBuffer; Dispose RChannel]
      else Acquire RMutex ::
        if negb (not_empty_ok r)
        then [Dispose RMutex; Dispose RBuffer; Dispose RChannel]
        else Acquire RNotEmpty ::
          if negb (not_full_ok r)
          then [Dispose RNotEmpty; Dispose RMutex; Dispose RBuffer;
                Dispose RChannel]
          else [Acquire RNotFull].

(** The resource a step of the finalizer gives back. *)
Definition teardown_event {V : Type} (d : teardown V) : list res_event :=
  match d with
  | DecRef _ => []
  | FreeBuffer => [Dispose RBuffer]
  | DestroyMutex => [Dispose RMutex]
  | DestroyCond not_empty => [Dispose RNotEmpty]
  | DestroyCond not_full => [Dispose RNotFull]
  | FreeChannel => [Dispose RChannel]
  end.

(** [take_out x held]: [held] without one [x], or [None] when [x] is not
    held. *)
Fixpoint take_out (x : resource) (held : list resource)
  : option (list resource) :=
  match held with
  | [] => None
  | y :: held' =>
      if decide (x = y) then Some held'
      else match take_out x held' with
           | Some rest => Some (y :: rest)
           | None => None
           end
  end.

(** The resources held after a sequence of events, most recent first;
    [None] when something is given back that is not held (a double free). *)
Fixpoint outstanding (held : list resource) (events : list res_event)
  : option (list resource) :=
  match events with
  | [] => Some held
  | Acquire x :: rest => outstanding (x :: held) rest
  | Dispose x :: rest =>
      match take_out x held with
      | Some held' => outstanding held' rest
      | None => None
      end
  end.

(** ** Accounting for values along a run *)

Section Accounting.

Context {V : Type}.

(** The value the next transition of a thread hands to the channel. *)
Definition sending (t : thread V) : list V :=
  match where_ t with
  | InSend value => [value]
  | InRecv => []
  | Idle =>
      match program t with
      | OpSend value :: _ => [value]
      | OpTrySend value :: _ => [value]
      | _ => []
      end
  end.

(** The value a transition put into the buffer: the one the thread was
    sending, when the call returned true (send) or ok (try_send). *)
Definition accepted_of (t : thread V) (r : option (op_result V)) : list V :=
  match r with
  | Some (RSend true) => sending t
  | Some (RTrySend code) => if code =? TRY_SEND_OK then sending t else []
  | _ => []
  end.

Definition accepted_step (i : nat) (s : system V) : list V :=
  match threads s !! i with
  | None => []
  | Some t =>
      match thread_step (chan s) t with
      | None => []
      | Some (_, _, _, r) => accepted_of t r
      end
  end.

(** The values the buffer accepted along a schedule, in the order in which
    it accepted them. *)
Fixpoint accepted (schedule : list nat) (s : system V) : list V :=
  match schedule with
  | [] => []
  | i :: rest => accepted_step i s ++ accepted rest (sched_step i s)
  end.

(** The values a thread holds: the one of the send it is parked in and the
    ones its program still has to send. *)
Definition held (t : thread V) : list V :=
  match where_ t with
  | InSend value => [value]
  | _ => []
  end ++ program_values (program t).

Definition pool_held (ts : list (thread V)) : list V := ts ≫= held.

(** The values given up with [lean_dec]. *)
Definition released_of (effs : list (effect V)) : list V :=
  effs ≫= (λ eff, match eff with LeanDec v => [v] | _ => [] end).

Definition released (tr : list (trace_entry (V:=V))) : list V :=
  tr ≫= (λ e, released_of e.1.2).

(** The number of blocking sends that returned true. *)
Definition success_of (r : option (op_result V)) : nat :=
  match r with
  | Some (RSend true) => 1
  | _ => 0
  end.

Definition sends_succeeded (tr : list (trace_entry (V:=V))) : nat :=
  sum_list_with (λ e, success_of e.2) tr.

(** What a transition did to a buffered channel: nothing, an enqueue of the
    value the thread was sending, a dequeue, or the close. *)
Inductive buffered_step (ch : conduit_channel_t V) (t : thread V) : conduit_channel_t V → list (effect V) →
    thread V → option (op_result V) → Prop :=
  | bstep_stay effs t' r :
      received_of r = [] → accepted_of t r = [] →
      held t ≡ₚ held t' ++ released_of effs →
      buffered_step ch t ch effs t' r
  | bstep_enqueue v effs t' r :
      closed ch = false → count ch < capacity ch →
      received_of r = [] → accepted_of t r = [v] → released_of effs = [] →
      held t = v :: held t' →
      buffered_step ch t (enqueue v ch) effs t' r
  | bstep_dequeue effs t' r :
      count ch ≠ 0 →
      received_of r = [(dequeue ch).1] → accepted_of t r = [] →
      released_of effs = [] → held t = held t' →
      buffered_step ch t (dequeue ch).2 effs t' r
  | bstep_close effs t' r :
      received_of r = [] → accepted_of t r = [] → released_of effs = [] →
      held t = held t' →
      buffered_step ch t (set_closed true ch) effs t' r.

(** Every place a value handed to the channel can be in: with a thread,
    in the buffer, with a receiver, or given up. *)
Definition holdings (s : system V) : list (ptr V) :=
  (Some <$> pool_held (threads s))
  ++ contents (chan s) ++ received (trace s) ++ (Some <$> released (trace s)).

(** The pending flags never say "deposited" and "taken" at once. *)
Definition pending_consistent (ch : conduit_channel_t V) : Prop :=
  pending_ready ch = true → pending_taken ch = false.

End Accounting.

Arguments buffered_step {V} ch t _ _ _ _.

(** * Properties *)

Section SimpleProperties.

Context {V : Type}.
Implicit Types ch : conduit_channel_t V.
Implicit Types value v : V.

(** ** Non-blocking send *)

Lemma try_send_codes_distinct :
  TRY_SEND_OK ≠ TRY_SEND_WOULD_BLOCK
  ∧ TRY_SEND_OK ≠ TRY_SEND_CLOSED
  ∧ TRY_SEND_WOULD_BLOCK ≠ TRY_SEND_CLOSED.
Proof. by compute. Qed.

(** C3. [conduit_channel_try_send] answers with one of the three codes ok,
    would-block, closed: closed whenever the channel is closed; on an open
    buffered channel would-block exactly when [count = capacity], and
    otherwise the value is written at [tail], [tail] and [count] advance and
    the answer is ok; on an open unbuffered channel always would-block. *)
Theorem try_send_tristate value ch :
  count ch ≤ capacity ch →
  ∃ ch' effs code,
    conduit_channel_try_send value ch = (ch', effs, code)
    ∧ (code = TRY_SEND_OK ∨ code = TRY_SEND_WOULD_BLOCK ∨ code = TRY_SEND_CLOSED)
    ∧ (closed ch = true → code = TRY_SEND_CLOSED)
    ∧ (closed ch = false → capacity ch = 0 → code = TRY_SEND_WOULD_BLOCK)
    ∧ (closed ch = false → capacity ch ≠ 0 →
         (code = TRY_SEND_WOULD_BLOCK ↔ count ch = capacity ch)
         ∧ (count ch ≠ capacity ch →
              code = TRY_SEND_OK
              ∧ buffer ch' = <[Z.to_nat (tail ch) := Some value]> (buffer ch)
              ∧ tail ch' = wrap (tail ch + 1) mod capacity ch
              ∧ count ch' = wrap (count ch + 1)
              ∧ ch' = enqueue value ch)).
Proof.
  intros Hle. unfold conduit_channel_try_send.
  destruct (closed ch) eqn:Hc.
  { eexists _, _, _. split; [done|]. repeat split; try done; auto. }
  destruct (capacity ch =? 0) eqn:Hcap.
  { apply Z.eqb_eq in Hcap.
    eexists _, _, _. split; [done|]. repeat split; try done; auto. }
  apply Z.eqb_neq in Hcap.
  destruct (capacity ch <=? count ch) eqn:Hfull.
  - apply Z.leb_le in Hfull.
    eexists _, _, _. split; [done|]. repeat split; try done; auto; lia.
  - apply Z.leb_gt in Hfull.
    eexists _, _, _. split; [done|].
    split; [auto|]. split; [done|]. split; [done|].
    intros _ _. split.
    + split; [by compute | lia].
    + done.
Qed.

(** ** Close *)

(** C5. Closing is idempotent.  The first close of an open channel sets
    [closed] and broadcasts on both condition variables; a close of a closed
    channel changes nothing and signals nothing, and still returns.  So two
    closes in a row leave the state and perform the effects of one. *)
Theorem close_idempotent ch :
  ∃ ch1 effs1 ch2 effs2,
    conduit_channel_close ch = (ch1, effs1, tt)
    ∧ conduit_channel_close ch1 = (ch2, effs2, tt)
    ∧ ch2 = ch1
    ∧ effs1 ++ effs2 = effs1
    ∧ closed ch1 = true
    ∧ (if closed ch
       then ch1 = ch ∧ effs1 = []
       else ch1 = set_closed true ch
            ∧ effs1 = [Broadcast not_empty; Broadcast not_full]).
Proof.
  unfold conduit_channel_close.
  destruct (closed ch) eqn:Hc; simpl.
  - exists ch, [], ch, []. rewrite Hc. simpl. done.
  - eexists _, _, _, _. split; [done|]. simpl. done.
Qed.

(** ** Failed sends *)

(** C6. A send on a closed channel returns false at once, gives the value up
    with [lean_dec] and leaves the channel as it was; a [try_send] whose
    answer is not ok gives the value up as well and stores nothing.  A
    blocking send that returns false after having waited also releases its
    value. *)
Theorem failed_send_releases value ch :
  (closed ch = true →
     conduit_channel_send value ch = (ch, [LeanDec value], Done false))
  ∧ (∀ ch' effs code,
       conduit_channel_try_send value ch = (ch', effs, code) →
       code ≠ TRY_SEND_OK →
       effs = [LeanDec value] ∧ ch' = ch)
  ∧ (∀ ch' effs,
       conduit_channel_send_resume value ch = (ch', effs, Done false) →
       effs = [LeanDec value]
       ∧ buffer ch' = buffer ch ∧ count ch' = count ch
       ∧ pending_value ch' = if capacity ch =? 0 then None else pending_value ch).
Proof.
  split; [|split].
  - intros Hc. unfold conduit_channel_send. by rewrite Hc.
  - intros ch' effs code. unfold conduit_channel_try_send.
    destruct (closed ch); [intros [= <- <- <-]; done|].
    destruct (capacity ch =? 0); [intros [= <- <- <-]; done|].
    destruct (capacity ch <=? count ch); intros [= <- <- <-]; done.
  - intros ch' effs. unfold conduit_channel_send_resume.
    destruct (capacity ch =? 0).
    + unfold send_unbuffered_wait.
      destruct (negb (pending_taken ch) && negb (closed ch)); [done|].
      destruct (pending_taken ch); intros [= <- <-]; done.
    + unfold send_buffered_wait.
      destruct (_ && _); [done|].
      destruct (closed ch); intros [= <- <-]; done.
Qed.

(** ** Non-blocking receive *)

(** C10. On an unbuffered channel that is closed while a deposited value is
    still unclaimed, [conduit_channel_try_recv] hands that value over (ok)
    and does not answer closed; it answers closed only when the channel is
    closed and no unclaimed value is pending. *)
Theorem try_recv_pending_before_closed ch :
  capacity ch = 0 →
  (closed ch = true → pending_ready ch = true → pending_taken ch = false →
     conduit_channel_try_recv ch
     = (set_pending (pending_value ch) false true ch, [Signal not_full],
        TryOk (pending_value ch)))
  ∧ ((conduit_channel_try_recv ch).2 = TryClosed
     ↔ closed ch = true ∧ unclaimed ch = false).
Proof.
  intros Hcap. unfold conduit_channel_try_recv, unclaimed.
  rewrite Hcap. simpl. split.
  - intros _ -> ->. done.
  - destruct (pending_ready ch && negb (pending_taken ch)); simpl.
    + split; [done|]. by intros [_ ?].
    + destruct (closed ch); simpl; split; try done. by intros [? _].
Qed.

End SimpleProperties.

(** ** The circular buffer as a queue *)

Section Buffer.

Context {V : Type}.
Implicit Types ch : conduit_channel_t V.
Implicit Types value v : V.

Local Arguments seqZ : simpl never.

Lemma wrap_small x : size_t_range x → wrap x = x.
Proof. intros ?. unfold wrap. by apply Z.mod_small. Qed.

Lemma wrap_bounds x : 0 ≤ x → 0 ≤ wrap x ≤ x.
Proof.
  intros Hx. unfold wrap, SIZE_MAX_plus_1. split.
  - apply Z.mod_pos_bound. lia.
  - apply Z.mod_le; lia.
Qed.

(** Two offsets below the capacity land on different slots. *)
Lemma slot_offset_inj cap h i j :
  0 < cap → 0 ≤ i < cap → 0 ≤ j < cap →
  (h + i) mod cap = (h + j) mod cap → i = j.
Proof.
  intros Hcap Hi Hj Heq.
  assert (Hd : (i - j) mod cap = 0).
  { replace (i - j) with ((h + i) - (h + j)) by lia.
    rewrite Zminus_mod, Heq, Z.sub_diag. by apply Z.mod_0_l; lia. }
  apply Z.mod_divide in Hd; [|lia].
  destruct Hd as [k Hk].
  assert (k = 0) by nia. lia.
Qed.

Lemma chan_wf_head_in_bounds ch :
  chan_wf ch → 0 < capacity ch →
  (Z.to_nat (head ch) < length (buffer ch))%nat.
Proof. intros [? ? ? Hh ? ?] Hc. specialize (Hh Hc). lia. Qed.

Lemma chan_wf_tail_in_bounds ch :
  chan_wf ch → 0 < capacity ch →
  (Z.to_nat (tail ch) < length (buffer ch))%nat.
Proof.
  intros [? ? ? ? Ht ?] Hc. rewrite (Ht Hc).
  pose proof (Z.mod_pos_bound (head ch + count ch) (capacity ch) Hc). lia.
Qed.

Lemma buffer_get_set_eq ch i p :
  (Z.to_nat i < length (buffer ch))%nat →
  buffer_get (buffer_set i p ch) i = p.
Proof.
  intros Hi. unfold buffer_get, buffer_set. simpl.
  by rewrite list_lookup_insert_eq.
Qed.

Lemma buffer_get_set_ne ch i j p :
  0 ≤ i → 0 ≤ j → i ≠ j →
  buffer_get (buffer_set i p ch) j = buffer_get ch j.
Proof.
  intros Hi Hj Hne. unfold buffer_get, buffer_set. simpl.
  rewrite list_lookup_insert_ne; [done|lia].
Qed.

Lemma chan_wf_enqueue value ch :
  chan_wf ch → count ch < capacity ch → chan_wf (enqueue value ch).
Proof.
  intros [Hcap Hbuf [Hc0 Hc1] Hh Ht Hp] Hlt.
  assert (Hpos : 0 < capacity ch) by lia.
  unfold size_t_range in Hcap.
  pose proof (Z.mod_pos_bound (head ch + count ch) (capacity ch) Hpos) as Hm.
  constructor; unfold count_inv; simpl; auto.
  - by rewrite length_insert.
  - rewrite wrap_small by (unfold size_t_range; lia). lia.
  - intros _. rewrite (Ht Hpos).
    rewrite !wrap_small by (unfold size_t_range; lia).
    rewrite Zplus_mod_idemp_l. f_equal. lia.
Qed.

Lemma chan_wf_dequeue ch :
  chan_wf ch → count ch ≠ 0 → chan_wf (dequeue ch).2.
Proof.
  intros [Hcap Hbuf [Hc0 Hc1] Hh Ht Hp] Hne.
  assert (Hpos : 0 < capacity ch) by lia.
  unfold size_t_range in Hcap. specialize (Hh Hpos).
  constructor; unfold count_inv; simpl; auto.
  - by rewrite length_insert.
  - rewrite wrap_small by (unfold size_t_range; lia). lia.
  - intros _. apply Z.mod_pos_bound. lia.
  - intros _. rewrite (Ht Hpos).
    rewrite !wrap_small by (unfold size_t_range; lia).
    rewrite Zplus_mod_idemp_l. f_equal. lia.
Qed.

(** Enqueueing appends to the queue. *)
Lemma contents_enqueue value ch :
  chan_wf ch → count ch < capacity ch →
  contents (enqueue value ch) = contents ch ++ [Some value].
Proof.
  intros Hwf Hlt.
  pose proof (chan_wf_tail_in_bounds ch Hwf) as Htb.
  destruct Hwf as [Hcap Hbuf [Hc0 Hc1] Hh Ht Hp].
  assert (Hpos : 0 < capacity ch) by lia.
  unfold size_t_range in Hcap. specialize (Hh Hpos). specialize (Ht Hpos).
  unfold contents, enqueue. simpl.
  rewrite wrap_small by (unfold size_t_range; lia).
  rewrite seqZ_app by lia. rewrite fmap_app. f_equal.
  - apply list_fmap_ext. intros k i Hk.
    apply lookup_seqZ in Hk as [-> Hk].
    apply (buffer_get_set_ne ch).
    + rewrite Ht. apply Z.mod_pos_bound. lia.
    + apply Z.mod_pos_bound. lia.
    + rewrite Ht. intros Heq.
      apply slot_offset_inj in Heq; lia.
  - change (seqZ (0 + count ch) 1) with [Z.of_nat 0 + (0 + count ch)].
    rewrite list_fmap_singleton. f_equal. cbn beta.
    replace (Z.of_nat 0 + (0 + count ch)) with (count ch) by lia.
    rewrite <- Ht.
    apply (buffer_get_set_eq ch). auto.
Qed.

(** Dequeueing takes the oldest value off the queue. *)
Lemma contents_dequeue ch :
  chan_wf ch → count ch ≠ 0 →
  contents ch = (dequeue ch).1 :: contents (dequeue ch).2.
Proof.
  intros [Hcap Hbuf [Hc0 Hc1] Hh Ht Hp] Hne.
  assert (Hpos : 0 < capacity ch) by lia.
  unfold size_t_range in Hcap. specialize (Hh Hpos). specialize (Ht Hpos).
  unfold contents, dequeue. simpl.
  rewrite !wrap_small by (unfold size_t_range; lia).
  rewrite (seqZ_cons 0 (count ch)) by lia. simpl. f_equal.
  - by rewrite Z.add_0_r, Z.mod_small.
  - replace (Z.pred (count ch)) with (count ch - 1) by lia.
    rewrite <- (fmap_add_seqZ 1 0), <- list_fmap_compose.
    apply list_fmap_ext. intros k i Hk. simpl.
    apply lookup_seqZ in Hk as [-> Hk]. simpl.
    rewrite Zplus_mod_idemp_l.
    replace (head ch + 1 + (0 + Z.of_nat k)) with (head ch + (1 + (0 + Z.of_nat k))) by lia.
    symmetry. apply (buffer_get_set_ne ch).
    + lia.
    + apply Z.mod_pos_bound. lia.
    + intros Heq. rewrite <- (Z.mod_small (head ch) (capacity ch)) in Heq at 1 by lia.
      replace (head ch) with (head ch + 0) in Heq at 1 by lia.
      apply slot_offset_inj in Heq; lia.
Qed.

Lemma contents_length ch : 0 ≤ count ch → Z.of_nat (length (contents ch)) = count ch.
Proof. intros ?. unfold contents. rewrite length_fmap, length_seqZ. lia. Qed.

Lemma contents_empty ch : count ch = 0 → contents ch = [].
Proof. intros H. unfold contents. by rewrite H. Qed.

End Buffer.

(** ** Every operation moves the channel by a guarded step *)

Section Moves.

Context {V : Type}.
Implicit Types ch : conduit_channel_t V.
Implicit Types value v : V.

Create HintDb moves.
Local Hint Constructors chan_move : moves.

Ltac split_ifs :=
  repeat match goal with
  | |- context [if ?b then _ else _] =>
      let E := fresh "E" in destruct b eqn:E; simpl
  end.

Ltac guards :=
  repeat match goal with
  | H : (_ && _) = true |- _ => apply andb_true_iff in H as [? ?]
  | H : (_ && _) = false |- _ => apply andb_false_iff in H as [?|?]
  | H : negb _ = true |- _ => apply negb_true_iff in H
  | H : negb _ = false |- _ => apply negb_false_iff in H
  | H : (_ <=? _) = false |- _ => apply Z.leb_gt in H
  | H : (_ <=? _) = true |- _ => apply Z.leb_le in H
  | H : (_ =? _) = false |- _ => apply Z.eqb_neq in H
  | H : (_ =? _) = true |- _ => apply Z.eqb_eq in H
  end.

Lemma send_buffered_wait_move value ch :
  chan_move ch (send_buffered_wait value ch).1.1.
Proof.
  unfold send_buffered_wait. split_ifs; guards; auto with moves; congruence.
Qed.

Lemma send_move value ch : chan_move ch (conduit_channel_send value ch).1.1.
Proof.
  unfold conduit_channel_send. destruct (closed ch) eqn:Hc; simpl; auto with moves.
  destruct (capacity ch =? 0) eqn:Hcap; [|apply send_buffered_wait_move].
  guards. unfold send_unbuffered_wait. simpl. rewrite Hc. simpl.
  auto with moves.
Qed.

Lemma send_resume_move value ch :
  chan_move ch (conduit_channel_send_resume value ch).1.1.
Proof.
  unfold conduit_channel_send_resume.
  destruct (capacity ch =? 0) eqn:Hcap; [|apply send_buffered_wait_move].
  guards. unfold send_unbuffered_wait. split_ifs; auto with moves.
Qed.

Lemma recv_move ch : chan_move ch (conduit_channel_recv ch).1.1.
Proof.
  unfold conduit_channel_recv, recv_unbuffered_wait, recv_buffered_wait.
  split_ifs; guards; auto with moves.
Qed.

Lemma try_send_move value ch : chan_move ch (conduit_channel_try_send value ch).1.1.
Proof.
  unfold conduit_channel_try_send. split_ifs; guards; auto with moves.
Qed.

Lemma try_recv_move ch : chan_move ch (conduit_channel_try_recv ch).1.1.
Proof.
  unfold conduit_channel_try_recv. split_ifs; guards; auto with moves.
Qed.

Lemma close_move ch : chan_move ch (conduit_channel_close ch).1.1.
Proof. unfold conduit_channel_close. split_ifs; auto with moves. Qed.

Lemma settle_chan {R} (ret : R → op_result V) parked rest (tr : transition R) :
  (settle ret parked rest tr).1.1.1 = tr.1.1.
Proof. destruct tr as [[ch' effs] [r|c]]; done. Qed.

Lemma thread_step_move ch (t : thread V) ch' effs t' r :
  thread_step ch t = Some (ch', effs, t', r) → chan_move ch ch'.
Proof.
  unfold thread_step. intros Hstep.
  assert (∀ x : step_result, Some x = Some (ch', effs, t', r) → ch' = x.1.1.1)
    as Hproj by (by intros ? [= ->]).
  destruct (where_ t).
  - destruct (program t) as [|[v| |v| |] rest]; [done|..].
    + apply Hproj in Hstep as ->. rewrite settle_chan. apply send_move.
    + apply Hproj in Hstep as ->. rewrite settle_chan. apply recv_move.
    + pose proof (try_send_move v ch) as Hm.
      destruct (conduit_channel_try_send v ch) as [[? ?] ?].
      by apply Hproj in Hstep as ->.
    + pose proof (try_recv_move ch) as Hm.
      destruct (conduit_channel_try_recv ch) as [[? ?] ?].
      by apply Hproj in Hstep as ->.
    + pose proof (close_move ch) as Hm.
      destruct (conduit_channel_close ch) as [[? ?] ?].
      by apply Hproj in Hstep as ->.
  - apply Hproj in Hstep as ->. rewrite settle_chan. apply send_resume_move.
  - apply Hproj in Hstep as ->. rewrite settle_chan. apply recv_move.
Qed.

Lemma chan_move_capacity ch ch' : chan_move ch ch' → capacity ch' = capacity ch.
Proof. by intros []. Qed.

Lemma chan_move_count_inv ch ch' : chan_move ch ch' → count_inv ch → count_inv ch'.
Proof.
  unfold count_inv. intros [] [Hlo Hhi]; simpl; try done.
  - pose proof (wrap_bounds (count ch + 1)). lia.
  - pose proof (wrap_bounds (count ch - 1)). lia.
Qed.

Lemma chan_move_wf ch ch' : chan_move ch ch' → chan_wf ch → chan_wf ch'.
Proof.
  intros [] Hwf; try done.
  - by apply chan_wf_enqueue.
  - by apply chan_wf_dequeue.
  - destruct Hwf. constructor; simpl; auto; lia.
  - by destruct Hwf.
Qed.

Lemma chan_move_closed ch ch' : chan_move ch ch' → closed ch = true → closed ch' = true.
Proof. by intros []. Qed.

Lemma sched_step_move i (s : system V) : chan_move (chan s) (chan (sched_step i s)).
Proof.
  unfold sched_step. destruct (threads s !! i) as [t|]; [|constructor].
  destruct (thread_step (chan s) t) as [[[[ch' effs] t'] r]|] eqn:Hstep;
    [|constructor].
  simpl. by eapply thread_step_move.
Qed.

(** An invariant of the guarded steps holds along every interleaving. *)
Lemma run_invariant (P : conduit_channel_t V → Prop) schedule (s : system V) :
  (∀ ch ch', chan_move ch ch' → P ch → P ch') →
  P (chan s) → P (chan (run schedule s)).
Proof.
  intros Hpres. revert s. unfold run.
  induction schedule as [|i schedule IH]; intros s Hs; simpl; [done|].
  apply IH. eapply Hpres; [apply sched_step_move|done].
Qed.

Lemma new_wf r ch : conduit_channel_new (V:=V) r = IoOk ch → chan_wf ch.
Proof.
  unfold conduit_channel_new.
  destruct (malloc_ok r), (mutex_ok r), (not_empty_ok r), (not_full_ok r);
    simpl; intros [= <-].
  constructor; unfold size_t_range, count_inv, SIZE_MAX_plus_1; simpl; lia.
Qed.

Lemma new_buffered_wf cap r ch :
  size_t_range cap →
  conduit_channel_new_buffered (V:=V) cap r = IoOk ch → chan_wf ch.
Proof.
  intros Hcap. unfold conduit_channel_new_buffered.
  destruct (cap =? 0) eqn:E; [apply new_wf|].
  destruct (malloc_ok r), (calloc_ok r), (mutex_ok r), (not_empty_ok r),
    (not_full_ok r); simpl; intros [= <-].
  unfold size_t_range in Hcap.
  constructor; unfold count_inv; simpl; auto; try lia.
  rewrite length_replicate. lia.
Qed.

(** C7. The occupancy bound [0 ≤ count ≤ capacity] holds for a channel just
    constructed and every operation (send, from its entry and from a
    wake-up, recv, try_send, try_recv, close) preserves it; hence [len] never
    exceeds [capacity], in whatever order threads run their operations. *)
Theorem count_never_exceeds_capacity :
  (∀ r (ch : conduit_channel_t V), conduit_channel_new r = IoOk ch → count_inv ch)
  ∧ (∀ cap r (ch : conduit_channel_t V),
       size_t_range cap →
       conduit_channel_new_buffered cap r = IoOk ch → count_inv ch)
  ∧ (∀ ch, count_inv ch →
       (∀ v, count_inv (conduit_channel_send v ch).1.1)
       ∧ (∀ v, count_inv (conduit_channel_send_resume v ch).1.1)
       ∧ count_inv (conduit_channel_recv ch).1.1
       ∧ (∀ v, count_inv (conduit_channel_try_send v ch).1.1)
       ∧ count_inv (conduit_channel_try_recv ch).1.1
       ∧ count_inv (conduit_channel_close ch).1.1
       ∧ 0 ≤ conduit_channel_len ch ≤ conduit_channel_capacity ch)
  ∧ (∀ ch programs schedule,
       count_inv ch →
       let s := run schedule (start ch programs) in
       count_inv (chan s)
       ∧ conduit_channel_len (chan s) ≤ conduit_channel_capacity (chan s)).
Proof.
  split; [|split; [|split]].
  - intros r ch H. by apply new_wf in H as [].
  - intros cap r ch Hcap H. by apply new_buffered_wf in H as [].
  - intros ch Hinv.
    pose proof (λ ch', chan_move_count_inv ch ch') as Hpres.
    split; [intros v; apply Hpres; [apply send_move|done]|].
    split; [intros v; apply Hpres; [apply send_resume_move|done]|].
    split; [apply Hpres; [apply recv_move|done]|].
    split; [intros v; apply Hpres; [apply try_send_move|done]|].
    split; [apply Hpres; [apply try_recv_move|done]|].
    split; [apply Hpres; [apply close_move|done]|].
    exact Hinv.
  - intros ch programs schedule Hinv s.
    assert (count_inv (chan s)) as Hs.
    { apply run_invariant; [apply chan_move_count_inv|done]. }
    split; [done|apply Hs].
Qed.

End Moves.

(** ** One thread sending and receiving on a buffered channel *)

Section Fifo.

Context {V : Type}.
Implicit Types ch : conduit_channel_t V.
Implicit Types value v : V.

Lemma send_buffered_room value ch :
  closed ch = false → capacity ch ≠ 0 → count ch < capacity ch →
  conduit_channel_send value ch = (enqueue value ch, [Signal not_empty], Done true).
Proof.
  intros Hc Hcap Hlt. unfold conduit_channel_send, send_buffered_wait.
  rewrite Hc. apply Z.eqb_neq in Hcap as ->. apply Z.leb_gt in Hlt as ->. done.
Qed.

Lemma recv_buffered_some ch :
  capacity ch ≠ 0 → count ch ≠ 0 →
  conduit_channel_recv ch
  = ((dequeue ch).2, [Signal not_full], Done (Some (dequeue ch).1)).
Proof.
  intros Hcap Hne. unfold conduit_channel_recv, recv_buffered_wait.
  apply Z.eqb_neq in Hcap as ->. apply Z.eqb_neq in Hne as ->. done.
Qed.

Lemma recv_buffered_drained ch :
  capacity ch ≠ 0 → count ch = 0 → closed ch = true →
  conduit_channel_recv ch = (ch, [], Done None).
Proof.
  intros Hcap H0 Hc. unfold conduit_channel_recv, recv_buffered_wait.
  apply Z.eqb_neq in Hcap as ->. rewrite H0, Hc. done.
Qed.

(** While there is room, every send returns true and appends its value. *)
Lemma send_all_room values ch :
  chan_wf ch → closed ch = false → capacity ch ≠ 0 →
  count ch + Z.of_nat (length values) ≤ capacity ch →
  ∃ ch',
    send_all values ch = Some (replicate (length values) true, ch')
    ∧ chan_wf ch' ∧ closed ch' = false ∧ capacity ch' = capacity ch
    ∧ count ch' = count ch + Z.of_nat (length values)
    ∧ contents ch' = contents ch ++ (Some <$> values).
Proof.
  revert ch. induction values as [|v values IH]; intros ch Hwf Hc Hcap Hroom.
  - exists ch. simpl. rewrite app_nil_r. split_and!; auto; lia.
  - simpl in Hroom.
    assert (count ch < capacity ch) as Hlt by lia.
    destruct (IH (enqueue v ch)) as (ch' & Hrun & Hwf' & Hc' & Hcap' & Hcnt & Hcont).
    + by apply chan_wf_enqueue.
    + done.
    + done.
    + destruct Hwf as [Hr _ [? ?] _ _ _]. unfold size_t_range in Hr. simpl.
      rewrite wrap_small by (unfold size_t_range; lia). lia.
    + exists ch'. simpl. rewrite send_buffered_room, Hrun by done.
      split; [done|]. split; [done|]. split; [done|]. split; [done|].
      rewrite Hcnt, Hcont, contents_enqueue by done.
      destruct Hwf as [Hr _ [? ?] _ _ _]. unfold size_t_range in Hr. simpl.
      rewrite wrap_small by (unfold size_t_range; lia).
      split; [lia|]. by rewrite <- app_assoc.
Qed.

(** As long as values are queued, every receive returns the oldest one. *)
Lemma recv_n_queued n ch :
  chan_wf ch → capacity ch ≠ 0 → Z.of_nat n ≤ count ch →
  ∃ ch',
    recv_n n ch = Some (Some <$> take n (contents ch), ch')
    ∧ chan_wf ch' ∧ closed ch' = closed ch ∧ capacity ch' = capacity ch
    ∧ count ch' = count ch - Z.of_nat n
    ∧ contents ch' = drop n (contents ch).
Proof.
  revert ch. induction n as [|n IH]; intros ch Hwf Hcap Hn.
  - exists ch. simpl. rewrite drop_0. split_and!; auto; lia.
  - assert (count ch ≠ 0) as Hne by lia.
    destruct (IH (dequeue ch).2) as (ch' & Hrun & Hwf' & Hc' & Hcap' & Hcnt & Hcont).
    + by apply chan_wf_dequeue.
    + done.
    + destruct Hwf as [Hr _ [? ?] _ _ _]. unfold size_t_range in Hr. simpl.
      rewrite wrap_small by (unfold size_t_range; lia). lia.
    + exists ch'. simpl. rewrite recv_buffered_some, Hrun by done.
      rewrite (contents_dequeue ch) by done. simpl.
      split; [done|]. split; [done|]. split; [done|]. split; [done|].
      split; [|done]. rewrite Hcnt.
      destruct Hwf as [Hr _ [? ?] _ _ _]. unfold size_t_range in Hr. simpl.
      rewrite wrap_small by (unfold size_t_range; lia). lia.
Qed.

(** Once closed and drained, every receive returns absent, without waiting. *)
Lemma recv_n_drained n ch :
  capacity ch ≠ 0 → count ch = 0 → closed ch = true →
  recv_n n ch = Some (replicate n None, ch).
Proof.
  intros Hcap H0 Hc. induction n as [|n IH]; [done|].
  simpl. by rewrite recv_buffered_drained, IH.
Qed.

Lemma recv_n_app n m ch rs ch' :
  recv_n n ch = Some (rs, ch') →
  recv_n (n + m) ch
  = (λ '(rs', ch''), (rs ++ rs', ch'')) <$> recv_n m ch'.
Proof.
  revert ch rs. induction n as [|n IH]; intros ch rs; simpl.
  - intros [= <- <-]. by destruct (recv_n m ch) as [[? ?]|].
  - destruct (conduit_channel_recv ch) as [[ch1 effs] [r|c]]; [|done].
    destruct (recv_n n ch1) as [[rs1 ch2]|] eqn:Hn; [|done].
    intros [= <- <-]. rewrite (IH _ _ Hn).
    by destruct (recv_n m ch2) as [[? ?]|].
Qed.

(** C1. A buffered channel is a FIFO queue: on an open, empty channel of
    capacity C, k ≤ C sends in a row all return true, and the k receives
    that follow return the values sent, in the order they were sent. *)
Theorem buffered_fifo values ch :
  chan_wf ch → capacity ch ≠ 0 → closed ch = false → count ch = 0 →
  Z.of_nat (length values) ≤ capacity ch →
  ∃ ch1 ch2,
    send_all values ch = Some (replicate (length values) true, ch1)
    ∧ recv_n (length values) ch1 = Some ((λ v, Some (Some v)) <$> values, ch2).
Proof.
  intros Hwf Hcap Hc H0 Hk.
  destruct (send_all_room values ch) as (ch1 & Hsend & Hwf1 & _ & Hcap1 & Hcnt1 & Hcont1);
    [done|done|done|lia|].
  destruct (recv_n_queued (length values) ch1) as (ch2 & Hrecv & _);
    [done|congruence|lia|].
  exists ch1, ch2. split; [done|]. rewrite Hrecv. do 2 f_equal.
  rewrite Hcont1, contents_empty by done. simpl.
  rewrite <- (length_fmap Some values), firstn_all.
  by rewrite <- list_fmap_compose.
Qed.

(** C2. Closing keeps what is buffered: on a buffered channel that holds N
    values when it is closed, the next N receives return those values,
    oldest first, and every receive after them returns absent. *)
Theorem drain_after_close ch extra :
  chan_wf ch → capacity ch ≠ 0 →
  ∃ ch0 effs ch',
    conduit_channel_close ch = (ch0, effs, tt)
    ∧ contents ch0 = contents ch
    ∧ Z.of_nat (length (contents ch)) = count ch
    ∧ recv_n (length (contents ch) + extra) ch0
      = Some ((Some <$> contents ch) ++ replicate extra None, ch').
Proof.
  intros Hwf Hcap.
  pose proof (close_move ch) as Hmove.
  destruct (conduit_channel_close ch) as [[ch0 effs] []] eqn:Hclose.
  simpl in Hmove.
  assert (chan_wf ch0) as Hwf0 by (by eapply chan_move_wf).
  assert (capacity ch0 = capacity ch) as Hcap0 by (by apply chan_move_capacity).
  assert (closed ch0 = true ∧ contents ch0 = contents ch ∧ count ch0 = count ch)
    as (Hc0 & Hcont0 & Hcnt0).
  { unfold conduit_channel_close in Hclose.
    destruct (closed ch) eqn:Hc; simpl in Hclose; by injection Hclose as <- _. }
  assert (0 ≤ count ch) as Hpos by (by destruct Hwf as [_ _ [? ?] _ _ _]).
  pose proof (contents_length ch Hpos) as Hlen.
  destruct (recv_n_queued (length (contents ch)) ch0)
    as (ch' & Hrecv & _ & Hc' & Hcap' & Hcnt' & _); [done|congruence|lia|].
  exists ch0, effs, ch'. split; [done|]. split; [done|]. split; [done|].
  rewrite (recv_n_app _ _ _ _ _ Hrecv).
  rewrite recv_n_drained by (congruence || lia). simpl.
  by rewrite Hcont0, firstn_all.
Qed.

End Fifo.

(** ** Select *)

Section SelectProperties.

Context {V : Type}.
Implicit Types ch : conduit_channel_t V.
Implicit Types h : heap (V:=V).
Implicit Types cases : list (handle * bool).
Implicit Types seen : sightings (V:=V).

(** On a well-formed channel the test of the code is the readiness of the
    specification. *)
Lemma case_ready_spec ch is_send :
  chan_wf ch → case_ready ch is_send = true ↔ ready_spec ch is_send.
Proof.
  intros [Hcap _ [Hc0 Hc1] _ _ Hp]. unfold size_t_range in Hcap.
  assert (pending_ready ch = true → capacity ch = 0) as Hp'.
  { intros Hr. destruct (decide (0 < capacity ch)) as [Hpos|]; [|lia].
    apply Hp in Hpos. congruence. }
  unfold case_ready, ready_spec, send_ready_spec, recv_ready_spec.
  destruct is_send.
  - destruct (closed ch); simpl; [intuition congruence|].
    destruct (0 <? capacity ch) eqn:E1; simpl;
      [apply Z.ltb_lt in E1|apply Z.ltb_ge in E1; intuition (congruence || lia)].
    destruct (count ch <? capacity ch) eqn:E2;
      [apply Z.ltb_lt in E2|apply Z.ltb_ge in E2];
      intuition (congruence || lia).
  - destruct (0 <? count ch) eqn:E1; simpl;
      [apply Z.ltb_lt in E1; tauto|apply Z.ltb_ge in E1].
    destruct (closed ch); simpl; [rewrite orb_true_r; tauto|].
    rewrite orb_false_r.
    destruct (pending_ready ch) eqn:Hr, (pending_taken ch); simpl;
      intuition (congruence || lia).
Qed.

Lemma select_poll_from_Some h cases i k :
  select_poll_from i h cases = Some k ↔
  ∃ j c, k = (i + j)%nat ∧ cases !! j = Some c
         ∧ case_ready (h c.1) c.2 = true
         ∧ ∀ j' c', (j' < j)%nat → cases !! j' = Some c' →
                    case_ready (h c'.1) c'.2 = false.
Proof.
  revert i. induction cases as [|[ch_obj is_send] rest IH]; intros i; simpl.
  - split; [done|]. by intros (j & c & _ & ? & _).
  - destruct (case_ready (h ch_obj) is_send) eqn:Hr.
    + split.
      * intros [= <-]. exists 0%nat, (ch_obj, is_send).
        split_and!; [lia|done|done|]. intros; lia.
      * intros (j & c & -> & Hj & Hc & Hfirst). destruct j as [|j]; [f_equal; lia|].
        specialize (Hfirst 0%nat (ch_obj, is_send)). simpl in Hfirst.
        rewrite Hfirst in Hr; [done|lia|done].
    + rewrite IH. split.
      * intros (j & c & -> & Hj & Hc & Hfirst). exists (S j), c.
        split_and!; [lia|done|done|].
        intros [|j'] c' Hlt; simpl; [by intros [= <-]|].
        apply Hfirst. lia.
      * intros (j & c & -> & Hj & Hc & Hfirst). destruct j as [|j].
        { simpl in Hj. injection Hj as <-. simpl in Hc. congruence. }
        exists j, c. split_and!; [lia|done|done|].
        intros j' c' Hlt Hj'. apply (Hfirst (S j') c'); [lia|done].
Qed.

Lemma select_poll_from_None h cases i :
  select_poll_from i h cases = None ↔
  ∀ j c, cases !! j = Some c → case_ready (h c.1) c.2 = false.
Proof.
  revert i. induction cases as [|[ch_obj is_send] rest IH]; intros i; simpl.
  - split; [by intros _ j c|done].
  - destruct (case_ready (h ch_obj) is_send) eqn:Hr.
    + split; [done|]. intros H. specialize (H 0%nat (ch_obj, is_send)).
      simpl in H. rewrite H in Hr; done.
    + rewrite IH. split.
      * intros H [|j] c; simpl; [by intros [= <-]|apply H].
      * intros H j c Hj. by apply (H (S j)).
Qed.

(** C4. [conduit_select_poll] returns the index of the first case, in the
    order of the list, that is ready, and absent exactly when no case is
    ready.  A send case is ready iff its channel is open and buffered with
    [count < capacity]; a receive case is ready iff [count > 0], or the
    channel is unbuffered and holds a value deposited and not yet claimed, or
    the channel is closed. *)
Theorem select_poll_first_ready h cases :
  Forall (λ c, chan_wf (h c.1)) cases →
  (∀ i, conduit_select_poll h cases = Some i ↔
      (∃ c, cases !! i = Some c ∧ ready_spec (h c.1) c.2)
      ∧ (∀ j c, (j < i)%nat → cases !! j = Some c → ¬ ready_spec (h c.1) c.2))
  ∧ (conduit_select_poll h cases = None ↔
      ∀ j c, cases !! j = Some c → ¬ ready_spec (h c.1) c.2).
Proof.
  intros Hwf. rewrite Forall_lookup in Hwf.
  assert (∀ j c, cases !! j = Some c →
            (case_ready (h c.1) c.2 = false ↔ ¬ ready_spec (h c.1) c.2)) as Hno.
  { intros j c Hj. rewrite <- case_ready_spec by eauto.
    by destruct (case_ready (h c.1) c.2). }
  unfold conduit_select_poll. split.
  - intros i. rewrite select_poll_from_Some. split.
    + intros (j & c & -> & Hj & Hc & Hfirst). simpl. split.
      * exists c. split; [done|]. apply case_ready_spec; eauto.
      * intros j' c' Hlt Hj'. apply (Hno j'); eauto.
    + intros [(c & Hi & Hc) Hfirst]. exists i, c.
      split_and!; [done|done|apply case_ready_spec; eauto|].
      intros j' c' Hlt Hj'. apply (Hno j'); eauto.
  - rewrite select_poll_from_None. split.
    + intros H j c Hj. apply (Hno j); eauto.
    + intros H j c Hj. apply (Hno j); eauto.
Qed.

Lemma wrap_succ x : wrap (wrap x + poll_interval) = wrap (x + 1).
Proof. unfold wrap, poll_interval. by rewrite Zplus_mod_idemp_l. Qed.

(** The pass over the closed flags answers true exactly when every channel
    is closed at the moment the thread looks at it. *)
Lemma all_closed_true (seen : nat → heap (V:=V)) cases i :
  all_closed i seen cases = true
  ↔ ∀ j c, cases !! j = Some c → closed (seen (i + j)%nat c.1) = true.
Proof.
  revert i. induction cases as [|[ch_obj is_send] rest IH]; intros i; simpl.
  - split; [by intros _ j c|done].
  - destruct (closed (seen i ch_obj)) eqn:Hc; simpl.
    + rewrite IH. split.
      * intros H [|j] c; simpl.
        -- intros [= <-]. by rewrite Nat.add_0_r.
        -- intros Hj. replace (i + S j)%nat with (S i + j)%nat by lia. by apply H.
      * intros H j c Hj. replace (S i + j)%nat with (i + S j)%nat by lia.
        by apply (H (S j)).
    + split; [done|]. intros H. specialize (H 0%nat (ch_obj, is_send) eq_refl).
      rewrite Nat.add_0_r in H. simpl in H. congruence.
Qed.

Lemma all_closed_every (seen : nat → heap (V:=V)) cases :
  all_closed 0 seen cases = true ↔ every_channel_closed seen cases.
Proof. by rewrite all_closed_true. Qed.

Lemma all_closed_some_open (seen : nat → heap (V:=V)) cases :
  some_channel_open seen cases → all_closed 0 seen cases = false.
Proof.
  intros (j & c & Hj & Hopen).
  destruct (all_closed 0 seen cases) eqn:Hall; [|done].
  apply all_closed_every in Hall. rewrite (Hall j c Hj) in Hopen. done.
Qed.

(** When nothing happens to the channels during the poll, it is the poll of
    that one state. *)
Lemma select_poll_seen_steady (seen : nat → heap (V:=V)) h cases i :
  steady seen h → select_poll_seen i seen cases = select_poll_from i h cases.
Proof.
  intros Hsteady. revert i.
  induction cases as [|[ch_obj is_send] rest IH]; intros i; simpl; [done|].
  by rewrite Hsteady, IH.
Qed.

Lemma select_poll_seen_Some (seen : nat → heap (V:=V)) cases i k :
  select_poll_seen i seen cases = Some k ↔
  ∃ j c, k = (i + j)%nat ∧ cases !! j = Some c
         ∧ case_ready (seen (i + j)%nat c.1) c.2 = true
         ∧ ∀ j' c', (j' < j)%nat → cases !! j' = Some c' →
                    case_ready (seen (i + j')%nat c'.1) c'.2 = false.
Proof.
  revert i. induction cases as [|[ch_obj is_send] rest IH]; intros i; simpl.
  - split; [done|]. by intros (j & c & _ & ? & _).
  - destruct (case_ready (seen i ch_obj) is_send) eqn:Hr.
    + split.
      * intros [= <-]. exists 0%nat, (ch_obj, is_send).
        rewrite Nat.add_0_r. split_and!; [done|done|done|]. intros; lia.
      * intros (j & c & -> & Hj & Hc & Hfirst). destruct j as [|j]; [f_equal; lia|].
        specialize (Hfirst 0%nat (ch_obj, is_send)).
        rewrite Nat.add_0_r in Hfirst. simpl in Hfirst.
        rewrite Hfirst in Hr; [done|lia|done].
    + rewrite IH. split.
      * intros (j & c & -> & Hj & Hc & Hfirst). exists (S j), c.
        replace (i + S j)%nat with (S i + j)%nat by lia.
        split_and!; [done|done|done|].
        intros [|j'] c' Hlt; simpl.
        -- intros [= <-]. by rewrite Nat.add_0_r.
        -- intros Hj'. replace (i + S j')%nat with (S i + j')%nat by lia.
           apply Hfirst; [lia|done].
      * intros (j & c & -> & Hj & Hc & Hfirst). destruct j as [|j].
        { simpl in Hj. injection Hj as <-. rewrite Nat.add_0_r in Hc.
          simpl in Hc. congruence. }
        exists j, c. replace (S i + j)%nat with (i + S j)%nat by lia.
        split_and!; [done|done|done|].
        intros j' c' Hlt Hj'. replace (S i + j')%nat with (i + S j')%nat by lia.
        apply (Hfirst (S j') c'); [lia|done].
Qed.

Lemma select_poll_seen_None (seen : nat → heap (V:=V)) cases i :
  select_poll_seen i seen cases = None ↔
  ∀ j c, cases !! j = Some c → case_ready (seen (i + j)%nat c.1) c.2 = false.
Proof.
  revert i. induction cases as [|[ch_obj is_send] rest IH]; intros i; simpl.
  - split; [by intros _ j c|done].
  - destruct (case_ready (seen i ch_obj) is_send) eqn:Hr.
    + split; [done|]. intros H. specialize (H 0%nat (ch_obj, is_send)).
      rewrite Nat.add_0_r in H. simpl in H. rewrite H in Hr; done.
    + rewrite IH. split.
      * intros H [|j] c; simpl.
        -- intros [= <-]. by rewrite Nat.add_0_r.
        -- intros Hj. replace (i + S j)%nat with (S i + j)%nat by lia. by apply H.
      * intros H j c Hj. replace (S i + j)%nat with (i + S j)%nat by lia.
        by apply (H (S j)).
Qed.

(** On well-formed channels the poll returns the first case found ready, and
    nothing exactly when none is. *)
Lemma select_poll_seen_first_ready (seen : nat → heap (V:=V)) cases :
  (∀ j ch_obj, chan_wf (seen j ch_obj)) →
  (∀ i, select_poll_seen 0 seen cases = Some i ↔ first_ready seen cases i)
  ∧ (select_poll_seen 0 seen cases = None ↔ none_ready seen cases).
Proof.
  intros Hwf.
  assert (∀ j c, case_ready (seen j c.1) c.2 = false
                 ↔ ¬ ready_spec (seen j c.1) c.2) as Hno.
  { intros j c. rewrite <- case_ready_spec by done.
    by destruct (case_ready (seen j c.1) c.2). }
  split.
  - intros i. rewrite select_poll_seen_Some. unfold first_ready, ready_when_seen.
    split.
    + intros (j & c & -> & Hj & Hc & Hfirst). simpl in *. split.
      * exists c. split; [done|]. by apply case_ready_spec.
      * intros j' Hlt (c' & Hj' & Hr'). by apply (Hno j' c'); [apply Hfirst|].
    + intros [(c & Hi & Hc) Hfirst]. exists i, c. simpl.
      split_and!; [done|done|by apply case_ready_spec|].
      intros j' c' Hlt Hj'. apply Hno. intros Hr'. apply (Hfirst j' Hlt). eauto.
  - rewrite select_poll_seen_None. unfold none_ready, ready_when_seen. simpl.
    split.
    + intros H j (c & Hj & Hr). by apply (Hno j c); [apply H|].
    + intros H j c Hj. apply Hno. intros Hr. apply (H j). eauto.
Qed.

(** [n] quiet iterations in a row: the loop sleeps [n] times and goes on. *)
Lemma select_wait_loop_quiet seen cases timeout_ms n fuel naps :
  size_t_range timeout_ms →
  (∀ k p j ch_obj, chan_wf (seen k p j ch_obj)) →
  (∀ r, (naps ≤ r < naps + n)%nat → quiet seen r cases) →
  timeout_ms = 0 ∨ Z.of_nat (naps + n) ≤ timeout_ms →
  select_wait_loop (n + fuel) seen cases timeout_ms (wrap (Z.of_nat naps)) naps
  = select_wait_loop fuel seen cases timeout_ms
      (wrap (Z.of_nat (naps + n))) (naps + n).
Proof.
  intros Hrange Hwf. revert naps.
  induction n as [|n IH]; intros naps Hquiet Hbound.
  - by rewrite Nat.add_0_r.
  - simpl.
    assert ((timeout_ms =? 0) || (wrap (Z.of_nat naps) <? timeout_ms) = true) as ->.
    { destruct Hbound as [->|Hb]; [done|]. apply orb_true_iff. right.
      unfold size_t_range in Hrange.
      rewrite wrap_small by (unfold size_t_range; lia). apply Z.ltb_lt. lia. }
    destruct (Hquiet naps) as [Hnone Hopen]; [lia|].
    apply (select_poll_seen_first_ready _ _ (Hwf naps PollPass)) in Hnone as ->.
    rewrite (all_closed_some_open _ _ Hopen).
    rewrite wrap_succ.
    replace (Z.of_nat naps + 1) with (Z.of_nat (S naps)) by lia.
    rewrite IH.
    + by replace (S naps + n)%nat with (naps + S n)%nat by lia.
    + intros r Hr. apply Hquiet. lia.
    + destruct Hbound; [by left|right; lia].
Qed.

(** C8. Let every channel be well-formed whenever the thread looks at it,
    and let the first [n] iterations be quiet (no case is ready when the
    poll looks at it, and some channel of the list is open).  If in the next
    iteration [i] is the first case found ready, [conduit_select_wait]
    returns [i]; when nothing happens to the channels during that poll, this
    is the index [conduit_select_poll] returns for their state.  If no case
    is found ready and every channel of the list is closed when the thread
    looks at its flag, [conduit_select_wait] returns absent in that
    iteration, without sleeping again.  Both hold provided the time is not
    up ([timeout_ms = 0] or [n < timeout_ms]).  With [timeout_ms > 0], once
    [timeout_ms] quiet iterations have passed, it returns absent.  With
    [timeout_ms = 0] no number of quiet iterations makes it return. *)
Theorem select_wait_contract seen cases timeout_ms n fuel :
  size_t_range timeout_ms →
  (∀ k p j ch_obj, chan_wf (seen k p j ch_obj)) →
  (∀ r, (r < n)%nat → quiet seen r cases) →
  (∀ i, timeout_ms = 0 ∨ Z.of_nat n < timeout_ms →
        first_ready (seen n PollPass) cases i →
        conduit_select_wait (S n + fuel) seen cases timeout_ms = Some (Some i, n))
  ∧ (∀ h i, steady (seen n PollPass) h →
            first_ready (seen n PollPass) cases i
            ↔ conduit_select_poll h cases = Some i)
  ∧ (timeout_ms = 0 ∨ Z.of_nat n < timeout_ms →
     none_ready (seen n PollPass) cases →
     every_channel_closed (seen n ClosedPass) cases →
     conduit_select_wait (S n + fuel) seen cases timeout_ms = Some (None, n))
  ∧ (0 < timeout_ms → Z.of_nat n = timeout_ms →
     conduit_select_wait (S n + fuel) seen cases timeout_ms = Some (None, n))
  ∧ (timeout_ms = 0 → conduit_select_wait n seen cases timeout_ms = None).
Proof.
  intros Hrange Hwf Hquiet. unfold conduit_select_wait.
  destruct (select_poll_seen_first_ready _ cases (Hwf n PollPass))
    as [Hsome Hnone].
  assert (∀ f, timeout_ms = 0 ∨ Z.of_nat n ≤ timeout_ms →
    select_wait_loop (n + f) seen cases timeout_ms 0 0
    = select_wait_loop f seen cases timeout_ms (wrap (Z.of_nat n)) n) as Hskip.
  { intros f Hb.
    change (select_wait_loop (n + f) seen cases timeout_ms 0 0)
      with (select_wait_loop (n + f) seen cases timeout_ms (wrap (Z.of_nat 0)) 0).
    rewrite select_wait_loop_quiet; [done|done|done| |done].
    intros r Hr. apply Hquiet. lia. }
  assert (∀ f, timeout_ms = 0 ∨ Z.of_nat n < timeout_ms →
    select_wait_loop (S n + f) seen cases timeout_ms 0 0
    = match select_poll_seen 0 (seen n PollPass) cases with
      | Some i => Some (Some i, n)
      | None => if all_closed 0 (seen n ClosedPass) cases then Some (None, n)
                else select_wait_loop f seen cases timeout_ms
                       (wrap (wrap (Z.of_nat n) + poll_interval)) (S n)
      end) as Hround.
  { intros f Hb.
    replace (S n + f)%nat with (n + S f)%nat by lia.
    rewrite Hskip by (destruct Hb; [by left|right; lia]). simpl.
    assert ((timeout_ms =? 0) || (wrap (Z.of_nat n) <? timeout_ms) = true) as ->; [|done].
    destruct Hb as [->|Hb]; [done|]. apply orb_true_iff. right.
    unfold size_t_range in Hrange.
    rewrite wrap_small by (unfold size_t_range; lia). apply Z.ltb_lt. lia. }
  split_and!.
  - intros i Hb Hfirst. apply Hsome in Hfirst. by rewrite Hround, Hfirst.
  - intros h i Hsteady. rewrite <- Hsome. unfold conduit_select_poll.
    by rewrite (select_poll_seen_steady _ h cases 0 Hsteady).
  - intros Hb Hno Hclosed. apply Hnone in Hno. apply all_closed_every in Hclosed.
    by rewrite Hround, Hno, Hclosed.
  - intros Hpos Hn.
    replace (S n + fuel)%nat with (n + S fuel)%nat by lia.
    rewrite Hskip by (right; lia). simpl.
    unfold size_t_range in Hrange.
    rewrite wrap_small by (unfold size_t_range; lia).
    assert ((timeout_ms =? 0) = false) as -> by (apply Z.eqb_neq; lia).
    assert ((Z.of_nat n <? timeout_ms) = false) as -> by (apply Z.ltb_ge; lia).
    done.
  - intros H0. rewrite <- (Nat.add_0_r n) at 1.
    rewrite Hskip by (by left). done.
Qed.

End SelectProperties.

(** ** Handoff on an unbuffered channel, under every interleaving *)

Section Handoff.

Context {V : Type}.
Implicit Types ch : conduit_channel_t V.
Implicit Types t : thread V.
Implicit Types s : system V.

Lemma submseteq_NoDup {A} (l k : list A) : l ⊆+ k → NoDup k → NoDup l.
Proof.
  intros Hsub Hk. apply submseteq_Permutation in Hsub as [k' Hk'].
  rewrite Hk' in Hk. by apply NoDup_app in Hk as [? _].
Qed.

(** What a transition on an unbuffered channel does to the pending slot and
    to the values of the thread that makes it. *)
Lemma thread_step_unbuffered ch t ch' effs t' r :
  capacity ch = 0 →
  thread_step ch t = Some (ch', effs, t', r) →
  capacity ch' = 0
  ∧ (Some <$> program_values (program t')) ++ unclaimed_value ch' ++ received_of r
    ⊆+ (Some <$> program_values (program t)) ++ unclaimed_value ch
  ∧ (received_of r = [] ∧ (pending_taken ch = false → pending_taken ch' = false)
     ∨ received_of r = [pending_value ch]
       ∧ unclaimed ch = true
       ∧ pending_taken ch' = true ∧ pending_ready ch' = false).
Proof.
  intros Hcap. unfold thread_step, unclaimed_value, unclaimed.
  unfold conduit_channel_send, conduit_channel_send_resume,
    conduit_channel_recv, conduit_channel_try_send, conduit_channel_try_recv,
    conduit_channel_close, send_unbuffered_wait, recv_unbuffered_wait.
  rewrite Hcap. simpl.
  destruct (where_ t) as [|v|]; [destruct (program t) as [|[v| |v| |] rest]|..];
    [done|..];
    destruct (pending_ready ch) eqn:Hr, (closed ch) eqn:Hc,
      (pending_taken ch) eqn:Ht; simpl; intros [= <- <- <- <-]; simpl;
    rewrite ?Hr, ?Ht; simpl;
    change (list_fmap V (option V) Some) with (fmap (M:=list) (@Some V));
    (split; [done|]); (split; [solve_submseteq|]); auto.
Qed.

Lemma pool_values_insert (ts : list (thread V)) i t t' :
  ts !! i = Some t →
  ∃ before after,
    pool_values ts = before ++ program_values (program t) ++ after
    ∧ pool_values (<[i := t']> ts) = before ++ program_values (program t') ++ after.
Proof.
  intros Hi.
  exists (pool_values (take i ts)), (pool_values (drop (S i) ts)).
  unfold pool_values. split.
  - rewrite <- (take_drop_middle ts i t Hi) at 1.
    by rewrite bind_app, bind_cons.
  - rewrite insert_take_drop by (by eapply lookup_lt_Some).
    by rewrite bind_app, bind_cons.
Qed.

Lemma received_snoc (tr : list (trace_entry (V:=V))) e :
  received (tr ++ [e]) = received tr ++ received_of e.2.
Proof. unfold received. rewrite bind_app. simpl. by rewrite app_nil_r. Qed.

(** A transition never adds to the ledger: it moves a value from a program
    to the pending slot, from the pending slot to a receiver, or drops it. *)
Lemma sched_step_unbuffered i s :
  capacity (chan s) = 0 →
  let s' := sched_step i s in
  capacity (chan s') = 0
  ∧ ledger s' ⊆+ ledger s
  ∧ (received (trace s') = received (trace s)
     ∧ (pending_taken (chan s) = false → pending_taken (chan s') = false)
     ∨ received (trace s') = received (trace s) ++ [pending_value (chan s)]
       ∧ unclaimed (chan s) = true
       ∧ pending_taken (chan s') = true ∧ pending_ready (chan s') = false).
Proof.
  intros Hcap. unfold sched_step.
  destruct (threads s !! i) as [t|] eqn:Hi; [|simpl; auto].
  destruct (thread_step (chan s) t) as [[[[ch' effs] t'] r]|] eqn:Hstep;
    [|simpl; auto].
  destruct (thread_step_unbuffered _ _ _ _ _ _ Hcap Hstep) as (Hcap' & Hsub & Hcase).
  destruct (pool_values_insert (threads s) i t t' Hi) as (before & after & Hb & Ha).
  simpl. split; [done|]. split.
  - unfold ledger. simpl. rewrite Hb, Ha, received_snoc, !fmap_app. simpl.
    set (x := Some <$> program_values (program t')) in *.
    set (y := Some <$> program_values (program t)) in *.
    set (rv := received (trace s)).
    transitivity ((Some <$> before) ++ (x ++ unclaimed_value ch' ++ received_of r)
                  ++ (Some <$> after) ++ rv); [solve_submseteq|].
    transitivity ((Some <$> before) ++ (y ++ unclaimed_value (chan s))
                  ++ (Some <$> after) ++ rv); [|solve_submseteq].
    apply submseteq_skips_l, submseteq_skips_r, Hsub.
  - rewrite received_snoc. simpl.
    destruct Hcase as [[-> ?]|(-> & ? & ? & ?)]; [left|right].
    + by rewrite app_nil_r.
    + done.
Qed.

Lemma run_snoc schedule i s :
  run (schedule ++ [i]) s = sched_step i (run schedule s).
Proof. unfold run. by rewrite foldl_snoc. Qed.

Lemma run_unbuffered schedule s :
  capacity (chan s) = 0 →
  capacity (chan (run schedule s)) = 0 ∧ ledger (run schedule s) ⊆+ ledger s.
Proof.
  intros Hcap. induction schedule as [|i schedule IH] using rev_ind; [done|].
  rewrite run_snoc. destruct IH as [Hcap' Hsub].
  destruct (sched_step_unbuffered i _ Hcap') as (? & ? & _).
  split; [done|]. by etransitivity.
Qed.

Lemma ledger_start ch (programs : list (list (op V))) :
  unclaimed ch = false →
  ledger (start ch programs) = Some <$> (programs ≫= program_values).
Proof.
  intros Hu. unfold ledger, start, unclaimed_value, pool_values, received.
  simpl. rewrite Hu. simpl. rewrite app_nil_r. f_equal.
  induction programs as [|p programs IH]; [done|].
  by rewrite fmap_cons, !bind_cons, IH.
Qed.

(** X19. No value comes out of an unbuffered channel twice, whatever the
    interleaving of the threads.  Along every schedule the values the
    receives (blocking or not) have returned form a sub-multiset of the
    values handed to send; when the values sent are pairwise distinct no two
    receives return the same one.  [pending_taken] goes from false to true
    only in the transition in which a receive claims the value waiting in
    the pending slot: that receive returns this value and clears
    [pending_ready], so that the next such transition needs a new deposit.
    (Nothing is said here about a value reaching a receiver at all.) *)
Theorem unbuffered_no_double_delivery r ch0 (programs : list (list (op V))) schedule :
  conduit_channel_new r = IoOk ch0 →
  let s := run schedule (start ch0 programs) in
  received (trace s) ⊆+ (Some <$> (programs ≫= program_values))
  ∧ (NoDup (programs ≫= program_values) → NoDup (received (trace s)))
  ∧ ∀ i, let s' := sched_step i s in
      (received (trace s') = received (trace s)
       ∧ (pending_taken (chan s) = false → pending_taken (chan s') = false))
      ∨ (received (trace s') = received (trace s) ++ [pending_value (chan s)]
         ∧ unclaimed (chan s) = true
         ∧ pending_taken (chan s') = true ∧ pending_ready (chan s') = false).
Proof.
  intros Hnew s.
  assert (capacity ch0 = 0 ∧ unclaimed ch0 = false) as [Hcap Hu].
  { unfold conduit_channel_new in Hnew.
    destruct (malloc_ok r), (mutex_ok r), (not_empty_ok r), (not_full_ok r);
      simplify_eq/=; done. }
  destruct (run_unbuffered schedule (start ch0 programs) Hcap) as [Hcap' Hsub].
  rewrite ledger_start in Hsub by done.
  assert (received (trace s) ⊆+ Some <$> (programs ≫= program_values)) as Hrecv.
  { etransitivity; [|exact Hsub]. unfold ledger. solve_submseteq. }
  split; [done|]. split.
  - intros Hnd. eapply submseteq_NoDup; [exact Hrecv|].
    apply NoDup_fmap_2; [|done]. by intros ?? [= ->].
  - intros i. by destruct (sched_step_unbuffered i s Hcap') as (_ & _ & Hcase).
Qed.

End Handoff.

(** * The properties at work on concrete channels *)

(** The invariant of a concrete channel is checked by computation. *)
Ltac wf_by_computation :=
  constructor; intros; vm_compute; repeat split; congruence.

(** A buffered channel of capacity 3 whose indices are about to wrap around:
    two sends and two receives on a fresh channel have left [head] and
    [tail] on the last slot. *)
Lemma buffered_fifo_witness :
  let ch := mkChannel [None; None; None] 3 2 2 0 None false false false in
  ∃ ch1 ch2,
    send_all [10; 20; 30]%nat ch = Some ([true; true; true], ch1)
    ∧ recv_n 3 ch1
      = Some ([Some (Some 10); Some (Some 20); Some (Some 30)]%nat, ch2).
Proof.
  intros ch.
  apply (buffered_fifo [10; 20; 30]%nat ch).
  - wf_by_computation.
  - simpl; lia.
  - reflexivity.
  - reflexivity.
  - simpl; lia.
Defined.

(** A channel holding 3 then 1, oldest first, around the end of the array,
    closed and then read four times. *)
Lemma drain_after_close_witness :
  let ch := mkChannel [Some 1; None; Some 3]%nat 3 2 1 2 None false false false in
  ∃ ch0 ch',
    (conduit_channel_close ch).1.1 = ch0
    ∧ recv_n 4 ch0
      = Some ([Some (Some 3); Some (Some 1); None; None]%nat, ch').
Proof.
  intros ch.
  destruct (drain_after_close ch 2) as (ch0 & effs & ch' & Hclose & _ & _ & Hrecv).
  - wf_by_computation.
  - simpl; lia.
  - exists ch0, ch'. split; [by rewrite Hclose|exact Hrecv].
Defined.

Lemma try_send_tristate_witness :
  let ch := mkChannel [Some 1; None]%nat 2 0 1 1 None false false false in
  ∃ ch' effs,
    conduit_channel_try_send 7%nat ch = (ch', effs, TRY_SEND_OK)
    ∧ buffer ch' = [Some 1; Some 7]%nat ∧ tail ch' = 0 ∧ count ch' = 2.
Proof.
  intros ch.
  destruct (try_send_tristate 7%nat ch)
    as (ch' & effs & code & Heq & _ & _ & _ & Hbuffered); [simpl; lia|].
  destruct Hbuffered as [_ Hok]; [reflexivity|simpl; lia|].
  destruct Hok as (-> & Hbuf & Htail & Hcount & _); [simpl; lia|].
  exists ch', effs. split; [exact Heq|]. split; [exact Hbuf|].
  split; [exact Htail|exact Hcount].
Defined.

(** Scenario: [chA] is empty and open, [chB] holds a value. *)
Lemma select_poll_first_ready_witness :
  let chA := mkChannel [None; None] 2 0 0 0 None false false false in
  let chB := mkChannel [Some 5%nat; None] 2 0 1 1 None false false false in
  let h := λ ch_obj : handle, match ch_obj with O => chA | _ => chB end in
  let cases := [(0%nat, false); (1%nat, false)] in
  conduit_select_poll h cases = Some 1%nat
  ∧ ¬ ready_spec (h 0%nat) false.
Proof.
  intros chA chB h cases.
  assert (Forall (λ c : handle * bool, chan_wf (h c.1)) cases) as Hwf.
  { apply Forall_cons_2; [wf_by_computation|].
    apply Forall_cons_2; [wf_by_computation|]. apply Forall_nil_2. }
  destruct (select_poll_first_ready h cases Hwf) as [Hsome _].
  assert (conduit_select_poll h cases = Some 1%nat) as Hpoll by reflexivity.
  split; [exact Hpoll|].
  apply (Hsome 1%nat) in Hpoll as [_ Hfirst].
  apply (Hfirst 0%nat (0%nat, false)); [lia|reflexivity].
Defined.

Lemma failed_send_releases_witness :
  let ch := mkChannel [None; None] 2 0 0 0 None false false true in
  conduit_channel_send 9%nat ch = (ch, [LeanDec 9%nat], Done false)
  ∧ (conduit_channel_try_send 9%nat ch).1 = (ch, [LeanDec 9%nat]).
Proof.
  intros ch.
  destruct (failed_send_releases 9%nat ch) as (Hsend & Htry & _).
  split; [apply Hsend; reflexivity|].
  destruct (Htry ch [LeanDec 9%nat] TRY_SEND_CLOSED) as [_ _];
    [reflexivity|by compute|reflexivity].
Defined.

Lemma count_never_exceeds_capacity_witness :
  let ch := mkChannel [Some 1; Some 2]%nat 2 0 0 2 None false false false in
  count_inv (conduit_channel_try_send 3%nat ch).1.1
  ∧ count_inv (conduit_channel_recv ch).1.1
  ∧ conduit_channel_len ch ≤ conduit_channel_capacity ch.
Proof.
  intros ch.
  destruct (count_never_exceeds_capacity (V:=nat)) as (_ & _ & Hops & _).
  destruct (Hops ch) as (_ & _ & Hrecv & Htry & _ & _ & Hlen);
    [unfold count_inv; simpl; lia|].
  split; [apply Htry|]. split; [exact Hrecv|apply Hlen].
Defined.

(** One open, empty channel watched for receiving, with a timeout of 3 ms:
    three sleeps, then absent. *)
Lemma select_wait_contract_witness :
  let ch := mkChannel [None] 1 0 0 0 (None : ptr nat) false false false in
  let seen := λ (_ : nat) (_ : pass) (_ : nat) (_ : handle), ch in
  conduit_select_wait 4 seen [(0%nat, false)] 3 = Some (None, 3%nat).
Proof.
  intros ch seen.
  destruct (select_wait_contract seen [(0%nat, false)] 3 3 0)
    as (_ & _ & _ & Htimeout & _).
  - unfold size_t_range, SIZE_MAX_plus_1; lia.
  - intros k p j ch_obj. wf_by_computation.
  - intros r _. split.
    + intros [|j] (c & Hj & Hready); [|done].
      injection Hj as <-. vm_compute in Hready.
      destruct Hready as [Hr|[(_ & Hr & _)|Hr]]; discriminate.
    + exists 0%nat, (0%nat, false). split; reflexivity.
  - apply Htimeout; lia.
Defined.

(** Two receivers and one sender on a fresh unbuffered channel: the value is
    returned once, to the receiver that ran first. *)
Lemma unbuffered_no_double_delivery_witness :
  let ch0 := mkChannel [] 0 0 0 0 None false false false in
  let programs := [[OpSend 42%nat]; [OpRecv]; [OpRecv]] in
  let s := run [0; 2; 1; 0]%nat (start ch0 programs) in
  received (trace s) = [Some 42%nat] ∧ NoDup (received (trace s)).
Proof.
  intros ch0 programs s.
  destruct (unbuffered_no_double_delivery all_ok ch0 programs [0; 2; 1; 0]%nat)
    as (_ & Hnodup & _); [reflexivity|].
  split; [reflexivity|]. apply Hnodup.
  apply NoDup_singleton.
Defined.

(** The state a sender and a closer leave behind when the sender has not
    run again yet: closed, with 42 still unclaimed. *)
Lemma try_recv_pending_before_closed_witness :
  let ch0 := mkChannel [] 0 0 0 0 None false false false in
  let ch := chan (run [0; 1]%nat (start ch0 [[OpSend 42%nat]; [OpClose]])) in
  closed ch = true
  ∧ (conduit_channel_try_recv ch).2 = TryOk (Some 42%nat).
Proof.
  intros ch0 ch.
  destruct (try_recv_pending_before_closed ch) as [Hok _]; [reflexivity|].
  split; [reflexivity|].
  rewrite Hok; reflexivity.
Defined.

(** A deposited value need not reach a receiver at all.  Thread 0 deposits
    42 and parks; thread 1 closes the channel; thread 0 wakes, finds
    [pending_taken] false, takes its value back and releases it; the receive
    of thread 2 then returns absent.  Every thread has finished and the
    number of receives that returned 42 is zero, not one. *)
Lemma deposit_withdrawn_on_close :
  let ch0 := mkChannel [] 0 0 0 0 None false false false in
  let programs := [[OpSend 42%nat]; [OpClose]; [OpRecv]] in
  let deposited := run [0]%nat (start ch0 programs) in
  let final := run [0; 1; 0; 2]%nat (start ch0 programs) in
  conduit_channel_new all_ok = IoOk ch0
  ∧ unclaimed_value (chan deposited) = [Some 42%nat]
  ∧ trace final
    = [(0%nat, [Signal not_empty], None);
       (1%nat, [Broadcast not_empty; Broadcast not_full], Some RClose);
       (0%nat, [LeanDec 42%nat], Some (RSend false));
       (2%nat, [], Some (RRecv None))]
  ∧ threads final = [mkThread Idle []; mkThread Idle []; mkThread Idle []]
  ∧ ¬ length (filter (λ p, p = Some 42%nat) (received (trace final))) = 1%nat.
Proof.
  intros ch0 programs deposited final.
  split; [reflexivity|]. split; [reflexivity|]. split; [reflexivity|].
  split; [reflexivity|]. vm_compute. discriminate.
Qed.

(** C9. On an unbuffered channel a value deposited by a send should be
    observed by exactly one receive.  With two senders at once the code does
    not do that.  Thread 0 deposits 1 and parks; thread 1 deposits 2 into
    the same pending slot and parks; the receiver, thread 2, claims 2;
    thread 0 wakes, finds [pending_taken] set and returns true.  So the send
    of 1 reports delivery, yet no receive has returned 1 or ever will: the
    value is neither received nor released, the slot is empty again, and the
    sender of 2, whose value was received, is still parked. *)
Theorem two_senders_lose_a_value :
  let ch0 := mkChannel [] 0 0 0 0 None false false false in
  let programs := [[OpSend 1%nat]; [OpSend 2%nat]; [OpRecv]] in
  let s := run [0; 1; 2; 0; 1]%nat (start ch0 programs) in
  conduit_channel_new all_ok = IoOk ch0
  ∧ unclaimed_value (chan (run [0]%nat (start ch0 programs))) = [Some 1%nat]
  ∧ unclaimed_value (chan (run [0; 1]%nat (start ch0 programs))) = [Some 2%nat]
  ∧ trace s
    = [(0%nat, [Signal not_empty], None);
       (1%nat, [Signal not_empty], None);
       (2%nat, [Signal not_full], Some (RRecv (Some (Some 2%nat))));
       (0%nat, [], Some (RSend true));
       (1%nat, [], None)]
  ∧ received (trace s) = [Some 2%nat]
  ∧ released (trace s) = []
  ∧ chan s = ch0
  ∧ threads s = [mkThread Idle []; mkThread (InSend 2%nat) []; mkThread Idle []]
  ∧ length (filter (λ p, p = Some 1%nat) (received (trace s))) = 0%nat.
Proof.
  intros ch0 programs s. subst s.
  split; [reflexivity|]. split; [reflexivity|]. split; [reflexivity|].
  split; [reflexivity|]. split; [reflexivity|]. split; [reflexivity|].
  split; [reflexivity|]. split; [reflexivity|]. vm_compute. reflexivity.
Qed.

(** The window between the two passes of [conduit_select_wait].  One channel
    watched for receiving, without a time bound: the poll finds it open and
    empty, another thread closes it, and the pass over the closed flags
    finds it closed.  The wait returns absent at once. *)
Example select_wait_close_in_the_window :
  let ch := mkChannel [None] 1 0 0 0 (None : ptr nat) false false false in
  let seen := λ (_ : nat) (p : pass) (_ : nat) (_ : handle),
                match p with
                | PollPass => ch
                | ClosedPass => set_closed true ch
                end in
  conduit_select_wait 1 seen [(0%nat, false)] 0 = Some (None, 0%nat).
Proof. reflexivity. Qed.

(** Two senders at once on an unbuffered channel: the deposit of thread 1
    replaces the one of thread 0 in the pending slot.  The receiver gets 2,
    the send of 1 returns true, and the send of 2 stays parked until the
    channel is closed, when it returns false and releases 2. *)
Example two_senders_share_the_slot :
  let ch0 := mkChannel [] 0 0 0 0 None false false false in
  let programs := [[OpSend 1%nat]; [OpSend 2%nat]; [OpRecv]; [OpClose]] in
  trace (run [0; 1; 2; 0; 1; 3; 1]%nat (start ch0 programs))
  = [(0%nat, [Signal not_empty], None);
     (1%nat, [Signal not_empty], None);
     (2%nat, [Signal not_full], Some (RRecv (Some (Some 2%nat))));
     (0%nat, [], Some (RSend true));
     (1%nat, [], None);
     (3%nat, [Broadcast not_empty; Broadcast not_full], Some RClose);
     (1%nat, [LeanDec 2%nat], Some (RSend false))].
Proof. reflexivity. Qed.

(** Scenario 1 of the specification, on a fresh channel of capacity 3. *)
Example scenario_buffered_3 :
  let ch0 := mkChannel [None; None; None] 3 0 0 0 None false false false in
  let program :=
    [OpSend 1; OpSend 2; OpSend 3; OpTrySend 4; OpRecv; OpSend 4;
     OpRecv; OpRecv; OpRecv]%nat in
  omap (λ e : trace_entry, e.2) (trace (run (replicate 9 0%nat) (start ch0 [program])))
  = [RSend true; RSend true; RSend true; RTrySend TRY_SEND_WOULD_BLOCK;
     RRecv (Some (Some 1%nat)); RSend true; RRecv (Some (Some 2%nat));
     RRecv (Some (Some 3%nat)); RRecv (Some (Some 4%nat))].
Proof. reflexivity. Qed.

(** Scenario 2: the sender parks, the receiver takes 42, the sender returns
    true. *)
Example scenario_rendezvous :
  let ch0 := mkChannel [] 0 0 0 0 None false false false in
  trace (run [0; 1; 0]%nat (start ch0 [[OpSend 42%nat]; [OpRecv]]))
  = [(0%nat, [Signal not_empty], None);
     (1%nat, [Signal not_full], Some (RRecv (Some (Some 42%nat))));
     (0%nat, [], Some (RSend true))].
Proof. reflexivity. Qed.

(** Scenario 4: a buffered channel closed at once. *)
Example scenario_closed_at_once :
  let ch0 := mkChannel [None; None] 2 0 0 0 None false false false in
  omap (λ e : trace_entry, e.2)
       (trace (run [0; 0; 0]%nat (start ch0 [[OpClose; OpSend 5%nat; OpRecv]])))
  = [RClose; RSend false; RRecv None].
Proof. reflexivity. Qed.

(** * Further properties of the code *)

(** ** Destruction releases what is still queued *)

Section FinalizerProperties.

Context {V : Type}.
Implicit Types ch : conduit_channel_t V.

Local Arguments seqZ : simpl never.

(** One iteration of the finalizer's loop keeps the representation
    invariant and takes the oldest value off the queue. *)
Lemma finalizer_iteration ch :
  chan_wf ch → 0 < count ch →
  let ch2 := set_count (wrap (count ch - 1))
               (set_head (wrap (head ch + 1) mod capacity ch) ch) in
  chan_wf ch2
  ∧ count ch2 = count ch - 1
  ∧ contents ch = buffer_get ch (head ch) :: contents ch2.
Proof.
  intros [Hcap Hbuf [Hc0 Hc1] Hh Ht Hp] Hpos ch2.
  assert (0 < capacity ch) as Hcpos by lia.
  unfold size_t_range in Hcap. specialize (Hh Hcpos). specialize (Ht Hcpos).
  assert (wrap (count ch - 1) = count ch - 1) as Hw1
    by (apply wrap_small; unfold size_t_range; lia).
  assert (wrap (head ch + 1) = head ch + 1) as Hw2
    by (apply wrap_small; unfold size_t_range; lia).
  split; [|split].
  - subst ch2. constructor; unfold count_inv; simpl; auto.
    + rewrite Hw1. lia.
    + intros _. apply Z.mod_pos_bound. lia.
    + intros _. rewrite Ht, Hw1, Hw2, Zplus_mod_idemp_l. f_equal. lia.
  - subst ch2. simpl. exact Hw1.
  - subst ch2. unfold contents. simpl. rewrite Hw1, Hw2.
    rewrite (seqZ_cons 0 (count ch)) by lia. simpl. f_equal.
    + unfold buffer_get. simpl. by rewrite Z.add_0_r, Z.mod_small.
    + replace (Z.pred (count ch)) with (count ch - 1) by lia.
      rewrite <- (fmap_add_seqZ 1 0), <- list_fmap_compose.
      apply list_fmap_ext. intros k i _. simpl.
      unfold buffer_get. simpl. rewrite Zplus_mod_idemp_l.
      by rewrite Z.add_assoc.
Qed.

Lemma finalizer_drain_contents n ch fuel :
  chan_wf ch → Z.to_nat (count ch) = n → (n ≤ fuel)%nat →
  ∃ ch', finalizer_drain fuel ch = Some (contents ch, ch')
         ∧ count ch' = 0
         ∧ pending_value ch' = pending_value ch.
Proof.
  revert ch fuel. induction n as [|n IH]; intros ch fuel Hwf Hn Hfuel.
  - assert (count ch = 0) as H0 by (destruct Hwf as [_ _ [? ?] _ _ _]; lia).
    exists ch. rewrite contents_empty by done.
    destruct fuel; simpl; rewrite H0; done.
  - assert (0 < count ch) as Hpos by lia.
    destruct fuel as [|fuel]; [lia|].
    destruct (finalizer_iteration ch Hwf Hpos) as (Hwf2 & Hcnt2 & Hcont).
    destruct (IH _ fuel Hwf2) as (ch' & Hrun & H0 & Hpv); [lia|lia|].
    exists ch'. simpl. apply Z.ltb_lt in Hpos as ->.
    simpl in Hrun. rewrite Hrun, Hcont. done.
Qed.

(** X1. Destroying a well-formed channel hands to [lean_dec] exactly the
    values still queued, oldest first and each once, then the value left in
    the pending slot if there is one; the buffer of a buffered channel is
    freed once, and the mutex, both condition variables and the structure
    are disposed of once, in that order.  The loop ends within [count]
    iterations. *)
Theorem finalizer_releases_queue ch fuel :
  chan_wf ch → (Z.to_nat (count ch) ≤ fuel)%nat →
  conduit_channel_finalizer fuel (Some ch)
  = Some ((DecRef <$> contents ch)
          ++ (if capacity ch =? 0 then [] else [FreeBuffer])
          ++ match pending_value ch with
             | Some v => [DecRef (Some v)]
             | None => []
             end
          ++ [DestroyMutex; DestroyCond not_empty; DestroyCond not_full;
              FreeChannel]).
Proof.
  intros Hwf Hfuel. unfold conduit_channel_finalizer.
  destruct (buffer ch) as [|p buf] eqn:Hbuf.
  - destruct Hwf as [_ Hlen [Hc0 Hc1] _ _ _]. rewrite Hbuf in Hlen. simpl in Hlen.
    rewrite <- Hlen in *. simpl.
    rewrite contents_empty by lia. done.
  - destruct (finalizer_drain_contents _ ch fuel Hwf eq_refl Hfuel)
      as (ch' & -> & _ & ->).
    assert (capacity ch ≠ 0) as Hcap.
    { destruct Hwf as [_ Hlen _ _ _ _]. rewrite Hbuf in Hlen. simpl in Hlen. lia. }
    apply Z.eqb_neq in Hcap as ->. by rewrite <- app_assoc.
Qed.

(** A buffered channel never touches the pending slot. *)
Lemma chan_move_buffered_pending ch ch' :
  chan_move ch ch' → capacity ch ≠ 0 →
  pending_value ch' = pending_value ch
  ∧ pending_ready ch' = pending_ready ch
  ∧ pending_taken ch' = pending_taken ch.
Proof. by intros []. Qed.

Lemma send_all_pending values ch bs ch' :
  capacity ch ≠ 0 → send_all values ch = Some (bs, ch') →
  pending_value ch' = pending_value ch.
Proof.
  revert ch bs. induction values as [|v values IH]; intros ch bs Hcap; simpl.
  - by intros [= _ <-].
  - pose proof (send_move v ch) as Hmove.
    destruct (conduit_channel_send v ch) as [[ch1 effs] [b|c]]; [|done].
    simpl in Hmove.
    destruct (send_all values ch1) as [[bs1 ch2]|] eqn:Hrest; [|done].
    intros [= _ <-].
    rewrite (IH ch1 bs1) by (by rewrite (chan_move_capacity _ _ Hmove) || done).
    by apply chan_move_buffered_pending.
Qed.

(** X2. Values sent and never received do not leak: on an open, empty
    buffered channel with nothing pending, k ≤ capacity sends followed by the
    destruction of the channel release exactly the k values sent, in the
    order they were sent. *)
Theorem sent_then_destroyed_is_released values ch fuel :
  chan_wf ch → capacity ch ≠ 0 → closed ch = false → count ch = 0 →
  pending_value ch = None →
  Z.of_nat (length values) ≤ capacity ch →
  (length values ≤ fuel)%nat →
  ∃ ch1,
    send_all values ch = Some (replicate (length values) true, ch1)
    ∧ conduit_channel_finalizer fuel (Some ch1)
      = Some (((λ v, DecRef (Some v)) <$> values)
              ++ [FreeBuffer; DestroyMutex; DestroyCond not_empty;
                  DestroyCond not_full; FreeChannel]).
Proof.
  intros Hwf Hcap Hopen H0 Hpv Hlen Hfuel.
  destruct (send_all_room values ch)
    as (ch1 & Hsend & Hwf1 & _ & Hcap1 & Hcnt1 & Hcont1); [done|done|done|lia|].
  exists ch1. split; [done|].
  assert (pending_value ch1 = None) as Hpv1
    by (by rewrite (send_all_pending _ _ _ _ Hcap Hsend)).
  destruct (finalizer_drain_contents _ ch1 fuel Hwf1 eq_refl)
    as (ch2 & Hdrain & _ & Hpv2); [lia|].
  unfold conduit_channel_finalizer.
  destruct (buffer ch1) as [|p buf] eqn:Hbuf.
  { destruct Hwf1 as [_ Hlen1 _ _ _ _]. rewrite Hbuf in Hlen1.
    simpl in Hlen1. lia. }
  rewrite Hdrain, Hpv2, Hpv1, Hcont1, contents_empty by done. simpl.
  by rewrite <- list_fmap_compose, <- app_assoc.
Qed.

End FinalizerProperties.

(** ** A buffered channel under every interleaving *)

Ltac bool_guards :=
  repeat match goal with
  | H : (_ && _) = true |- _ => apply andb_true_iff in H as [? ?]
  | H : (_ && _) = false |- _ => apply andb_false_iff in H as [?|?]
  | H : negb _ = true |- _ => apply negb_true_iff in H
  | H : negb _ = false |- _ => apply negb_false_iff in H
  | H : (_ <=? _) = false |- _ => apply Z.leb_gt in H
  | H : (_ <=? _) = true |- _ => apply Z.leb_le in H
  | H : (_ <? _) = false |- _ => apply Z.ltb_ge in H
  | H : (_ <? _) = true |- _ => apply Z.ltb_lt in H
  | H : (_ =? _) = false |- _ => apply Z.eqb_neq in H
  | H : (_ =? _) = true |- _ => apply Z.eqb_eq in H
  end.

Section BufferedRuns.

Context {V : Type}.
Implicit Types ch : conduit_channel_t V.
Implicit Types t : thread V.
Implicit Types s : system V.

Lemma thread_step_buffered ch t ch' effs t' r :
  capacity ch ≠ 0 →
  thread_step ch t = Some (ch', effs, t', r) →
  buffered_step ch t ch' effs t' r.
Proof.
  intros Hcap. apply Z.eqb_neq in Hcap.
  unfold thread_step, conduit_channel_send, conduit_channel_send_resume,
    conduit_channel_recv, conduit_channel_try_send, conduit_channel_try_recv,
    conduit_channel_close, send_buffered_wait, recv_buffered_wait.
  rewrite Hcap.
  destruct t as [w prog]. simpl.
  destruct w as [|v|]; [destruct prog as [|[v| |v| |] rest]|..]; [done|..];
    destruct (closed ch) eqn:Hc, (capacity ch <=? count ch) eqn:Hfull,
      (count ch =? 0) eqn:Hempty; simpl;
    intros [= <- <- <- <-]; bool_guards;
    first
      [ by apply bstep_stay; [done|done|cbn; solve_Permutation]
      | by apply bstep_enqueue
      | by apply bstep_dequeue
      | by apply bstep_close ].
Qed.

Lemma bind_insert {A B} (f : A → list B) (l : list A) i x y :
  l !! i = Some x →
  ∃ before after,
    l ≫= f = before ++ f x ++ after
    ∧ <[i := y]> l ≫= f = before ++ f y ++ after.
Proof.
  intros Hi. exists (take i l ≫= f), (drop (S i) l ≫= f). split.
  - rewrite <- (take_drop_middle l i x Hi) at 1.
    by rewrite bind_app, bind_cons.
  - rewrite insert_take_drop by (by eapply lookup_lt_Some).
    by rewrite bind_app, bind_cons.
Qed.

Lemma released_snoc (tr : list (trace_entry (V:=V))) e :
  released (tr ++ [e]) = released tr ++ released_of e.1.2.
Proof. unfold released. rewrite bind_app. simpl. by rewrite app_nil_r. Qed.

Lemma run_cons i schedule s : run (i :: schedule) s = run schedule (sched_step i s).
Proof. done. Qed.

(** One transition of the system on a buffered channel. *)
Lemma sched_step_buffered i s :
  chan_wf (chan s) → capacity (chan s) ≠ 0 →
  let s' := sched_step i s in
  chan_wf (chan s') ∧ capacity (chan s') = capacity (chan s)
  ∧ (closed (chan s) = true → closed (chan s') = true ∧ accepted_step i s = [])
  ∧ received (trace s') ++ contents (chan s')
    = received (trace s) ++ contents (chan s) ++ (Some <$> accepted_step i s)
  ∧ holdings s' ≡ₚ holdings s.
Proof.
  intros Hwf Hcap s'.
  pose proof (sched_step_move i s) as Hmove. fold s' in Hmove.
  split; [by eapply chan_move_wf|]. split; [by apply chan_move_capacity|].
  subst s'. clear Hmove. unfold sched_step, accepted_step, holdings.
  destruct (threads s !! i) as [t|] eqn:Hi;
    [|by rewrite app_nil_r].
  destruct (thread_step (chan s) t) as [[[[ch' effs] t'] r]|] eqn:Hstep;
    [|by rewrite app_nil_r].
  apply thread_step_buffered in Hstep; [|done].
  destruct (bind_insert held (threads s) i t t' Hi) as (before & after & Hb & Ha).
  unfold pool_held. cbn [chan threads trace].
  rewrite Hb, Ha. rewrite !(received_snoc (trace s)), !(released_snoc (trace s)).
  cbn [fst snd].
  destruct Hstep as [effs t' r Hr Hacc Hheld
                    |v effs t' r Hopen Hroom Hr Hacc Hrel Hheld
                    |effs t' r Hne Hr Hacc Hrel Hheld
                    |effs t' r Hr Hacc Hrel Hheld];
    rewrite Hr, Hacc; simpl; rewrite ?app_nil_r.
  - split; [done|]. split; [done|].
    rewrite Hheld, !fmap_app. solve_Permutation.
  - split; [congruence|].
    rewrite contents_enqueue by done. split; [done|].
    rewrite Hheld, Hrel, !fmap_app, fmap_cons. simpl. rewrite app_nil_r.
    solve_Permutation.
  - split; [done|].
    rewrite (contents_dequeue (chan s)) by done.
    split; [by rewrite <- app_assoc|].
    rewrite Hheld, Hrel. simpl. rewrite app_nil_r. solve_Permutation.
  - split; [done|]. split; [done|].
    rewrite Hheld, Hrel. simpl. rewrite app_nil_r.
    change (contents (set_closed true (chan s))) with (contents (chan s)).
    done.
Qed.

Lemma run_buffered schedule s :
  chan_wf (chan s) → capacity (chan s) ≠ 0 →
  let s' := run schedule s in
  chan_wf (chan s') ∧ capacity (chan s') = capacity (chan s)
  ∧ (closed (chan s) = true → closed (chan s') = true ∧ accepted schedule s = [])
  ∧ received (trace s') ++ contents (chan s')
    = received (trace s) ++ contents (chan s) ++ (Some <$> accepted schedule s)
  ∧ holdings s' ≡ₚ holdings s.
Proof.
  revert s. induction schedule as [|i schedule IH]; intros s Hwf Hcap.
  - simpl. by rewrite !app_nil_r.
  - rewrite run_cons. cbn [accepted]. cbn zeta.
    destruct (sched_step_buffered i s Hwf Hcap) as (Hwf1 & Hcap1 & Hcl1 & Hfifo1 & Hperm1).
    destruct (IH (sched_step i s) Hwf1) as (Hwf2 & Hcap2 & Hcl2 & Hfifo2 & Hperm2);
      [congruence|].
    split; [done|]. split; [congruence|]. split; [|split].
    + intros Hc. destruct (Hcl1 Hc) as [Hc1 ->].
      destruct (Hcl2 Hc1) as [Hc2 ->]. done.
    + rewrite Hfifo2, app_assoc, Hfifo1, fmap_app, <- !app_assoc. done.
    + by rewrite Hperm2.
Qed.

Lemma pool_held_start (programs : list (list (op V))) :
  pool_held (mkThread Idle <$> programs) = programs ≫= program_values.
Proof.
  unfold pool_held. induction programs as [|p programs IH]; [done|].
  by rewrite fmap_cons, !bind_cons, IH.
Qed.

(** X3. A buffered channel is first-in first-out under every interleaving of
    its threads: at any moment, the values the receives have returned so
    far, followed by the values still queued, are the values that were
    queued at the start followed by the values the channel accepted (sends
    that returned true, try_sends that returned ok), in the order in which it
    accepted them. *)
Theorem buffered_fifo_every_interleaving ch0 (programs : list (list (op V))) schedule :
  chan_wf ch0 → capacity ch0 ≠ 0 →
  let s := run schedule (start ch0 programs) in
  received (trace s) ++ contents (chan s)
  = contents ch0 ++ (Some <$> accepted schedule (start ch0 programs)).
Proof.
  intros Hwf Hcap s. subst s.
  destruct (run_buffered schedule (start ch0 programs) Hwf Hcap)
    as (_ & _ & _ & Hfifo & _).
  rewrite Hfifo. done.
Qed.

(** X4. A buffered channel neither loses nor duplicates a value, under every
    interleaving: the values handed to it in the programs, with those queued
    at the start, are at any moment exactly (as a multiset) the values still
    with a thread, the values queued, the values received and the values
    released with [lean_dec]. *)
Theorem buffered_values_conserved ch0 (programs : list (list (op V))) schedule :
  chan_wf ch0 → capacity ch0 ≠ 0 →
  holdings (run schedule (start ch0 programs))
  ≡ₚ (Some <$> (programs ≫= program_values)) ++ contents ch0.
Proof.
  intros Hwf Hcap.
  destruct (run_buffered schedule (start ch0 programs) Hwf Hcap)
    as (_ & _ & _ & _ & ->).
  unfold holdings, start. simpl. rewrite pool_held_start.
  by rewrite !app_nil_r.
Qed.


End BufferedRuns.

(** ** What holds along every run, buffered or not *)

Section RunProperties.

Context {V : Type}.
Implicit Types ch : conduit_channel_t V.
Implicit Types t : thread V.
Implicit Types s : system V.

(** The facts about one transition that the properties below need, read off
    the code by cases on the thread and on every test the code makes. *)
Lemma thread_step_facts ch t ch' effs t' r :
  thread_step ch t = Some (ch', effs, t', r) →
  (pending_consistent ch → pending_consistent ch')
  ∧ (closed ch = true → where_ t' = Idle)
  ∧ (where_ t ≠ Idle → where_ t' ≠ Idle →
       ch' = ch ∧ effs = [] ∧ t' = t ∧ r = None)
  ∧ (where_ t' = Idle ↔ r ≠ None)
  ∧ (pending_consistent ch → chan_wf ch → r = Some (RRecv None) →
       closed ch = true ∧ count ch = 0 ∧ unclaimed ch = false).
Proof.
  unfold thread_step, conduit_channel_send, conduit_channel_send_resume,
    conduit_channel_recv, conduit_channel_try_send, conduit_channel_try_recv,
    conduit_channel_close, send_buffered_wait, recv_buffered_wait,
    send_unbuffered_wait, recv_unbuffered_wait, pending_consistent,
    count_inv, unclaimed.
  destruct t as [w prog]. simpl.
  destruct w as [|v|]; [destruct prog as [|[v| |v| |] rest]|..]; [done|..];
    destruct (closed ch) eqn:Hc, (capacity ch =? 0) eqn:Hcap,
      (capacity ch <=? count ch) eqn:Hfull, (count ch =? 0) eqn:Hempty,
      (pending_ready ch) eqn:Hr, (pending_taken ch) eqn:Ht; simpl;
    intros [= <- <- <- <-]; simpl; rewrite ?Hr, ?Ht; bool_guards;
    (split_and!; [intros; simplify_eq/=; try done; auto..
                 |split; intros; simplify_eq/=; done
                 |intros Hpc [Hrng _ [Hc0 Hc1] _ _ Hp] Hres; simplify_eq/=;
                  unfold size_t_range in Hrng;
                  try (specialize (Hpc eq_refl)); try done;
                  split_and!; try done; try lia;
                  rewrite Hp in Hr by lia; done]).
Qed.

Lemma run_consistent schedule s :
  pending_consistent (chan s) → pending_consistent (chan (run schedule s)).
Proof.
  revert s. induction schedule as [|i schedule IH]; intros s Hs; [done|].
  rewrite run_cons. apply IH. unfold sched_step.
  destruct (threads s !! i) as [t|]; [|done].
  destruct (thread_step (chan s) t) as [[[[ch' effs] t'] r]|] eqn:Hstep; [|done].
  simpl. destruct (thread_step_facts _ _ _ _ _ _ Hstep) as (Hpres & _).
  by apply Hpres.
Qed.

Lemma new_buffered_shape cap r ch0 :
  conduit_channel_new_buffered (V:=V) cap r = IoOk ch0 →
  capacity ch0 = cap ∧ pending_consistent ch0 ∧ closed ch0 = false.
Proof.
  unfold conduit_channel_new_buffered, conduit_channel_new, pending_consistent.
  destruct (cap =? 0) eqn:E; bool_guards;
    destruct (malloc_ok r), (calloc_ok r), (mutex_ok r), (not_empty_ok r),
      (not_full_ok r); simpl; intros [= <-]; simpl; done.
Qed.

(** X6. Memory safety of the circular buffer.  From a channel just
    constructed, whatever the threads do and in whatever order, the
    representation invariant holds: the capacity and the length of the
    buffer never change, and [head] and [tail] always index a slot of the
    buffer, so no operation reads or writes outside it. *)
Theorem constructed_channel_stays_well_formed cap r ch0
    (programs : list (list (op V))) schedule :
  size_t_range cap → conduit_channel_new_buffered cap r = IoOk ch0 →
  let s := run schedule (start ch0 programs) in
  chan_wf (chan s)
  ∧ conduit_channel_capacity (chan s) = cap
  ∧ Z.of_nat (length (buffer (chan s))) = cap
  ∧ (cap ≠ 0 →
       (Z.to_nat (head (chan s)) < length (buffer (chan s)))%nat
       ∧ (Z.to_nat (tail (chan s)) < length (buffer (chan s)))%nat).
Proof.
  intros Hcap Hnew s.
  pose proof (new_buffered_wf cap r ch0 Hcap Hnew) as Hwf0.
  destruct (new_buffered_shape cap r ch0 Hnew) as (Hc0 & _ & _).
  assert (chan_wf (chan s)) as Hwf.
  { apply run_invariant; [apply chan_move_wf|done]. }
  assert (capacity (chan s) = cap) as Hc.
  { apply (run_invariant (λ ch, capacity ch = cap)); [|done].
    intros ch ch' Hm <-. by apply chan_move_capacity. }
  split; [done|]. split; [done|]. split.
  - destruct Hwf as [_ Hlen _ _ _ _]. congruence.
  - intros Hne. unfold size_t_range in Hcap.
    split; [apply chan_wf_head_in_bounds|apply chan_wf_tail_in_bounds];
      (done || lia).
Qed.

(** X7. Close wakes everybody: on a closed channel no call parks.  Whatever
    state the threads are in, the thread the scheduler picks next is between
    two calls afterwards: a send or receive that was parked returns, and a
    new call returns at once; and the channel stays closed. *)
Theorem closed_channel_never_parks s i t' :
  closed (chan s) = true →
  threads (sched_step i s) !! i = Some t' →
  where_ t' = Idle ∧ closed (chan (sched_step i s)) = true.
Proof.
  intros Hc Hlookup.
  split; [|by eapply chan_move_closed; [apply sched_step_move|]].
  revert Hlookup. unfold sched_step.
  destruct (threads s !! i) as [t|] eqn:Hi; [|by rewrite Hi].
  destruct (thread_step (chan s) t) as [[[[ch' effs] t1] r]|] eqn:Hstep.
  - simpl. rewrite list_lookup_insert_eq by (by eapply lookup_lt_Some).
    intros [= <-].
    destruct (thread_step_facts _ _ _ _ _ _ Hstep) as (_ & Hidle & _).
    by apply Hidle.
  - rewrite Hi. intros [= <-]. unfold thread_step in Hstep.
    by destruct (where_ t).
Qed.

(** X8. A wake-up without cause is harmless.  When a parked thread is
    scheduled, either its call returns, or it parks again and nothing has
    changed: not the channel, not the threads, and no signal was sent. *)
Theorem woken_thread_returns_or_changes_nothing s i t :
  threads s !! i = Some t → where_ t ≠ Idle →
  let s' := sched_step i s in
  (∃ effs r t', trace s' = trace s ++ [(i, effs, Some r)]
                ∧ threads s' !! i = Some t' ∧ where_ t' = Idle)
  ∨ (chan s' = chan s ∧ threads s' = threads s
     ∧ trace s' = trace s ++ [(i, [], None)]).
Proof.
  intros Hi Hparked s'. subst s'. unfold sched_step. rewrite Hi.
  destruct (thread_step (chan s) t) as [[[[ch' effs] t'] r]|] eqn:Hstep.
  - destruct (thread_step_facts _ _ _ _ _ _ Hstep) as (_ & _ & Hagain & Hidle & _).
    simpl. destruct r as [r|].
    + left. exists effs, r, t'. split; [done|].
      rewrite list_lookup_insert_eq by (by eapply lookup_lt_Some).
      split; [done|]. by apply Hidle.
    + right. destruct (Hagain Hparked) as (-> & -> & -> & _).
      * intros Hw. by apply Hidle in Hw.
      * by rewrite list_insert_id.
  - unfold thread_step in Hstep. by destruct (where_ t).
Qed.

(** X9. A blocking receive returns absent only on a channel that is closed
    and drained.  From a channel just constructed, under every interleaving,
    when a receive returns absent the channel is closed, [len] is 0 and no
    deposited value is waiting. *)
Theorem recv_absent_means_closed_and_drained cap r ch0
    (programs : list (list (op V))) schedule i t ch' effs t' :
  size_t_range cap → conduit_channel_new_buffered cap r = IoOk ch0 →
  let s := run schedule (start ch0 programs) in
  threads s !! i = Some t →
  thread_step (chan s) t = Some (ch', effs, t', Some (RRecv None)) →
  conduit_channel_is_closed (chan s) = true
  ∧ conduit_channel_len (chan s) = 0
  ∧ unclaimed (chan s) = false.
Proof.
  intros Hcap Hnew s _ Hstep.
  pose proof (new_buffered_wf cap r ch0 Hcap Hnew) as Hwf0.
  destruct (new_buffered_shape cap r ch0 Hnew) as (_ & Hpc0 & _).
  assert (chan_wf (chan s)) as Hwf.
  { apply run_invariant; [apply chan_move_wf|done]. }
  assert (pending_consistent (chan s)) as Hpc by (by apply run_consistent).
  destruct (thread_step_facts _ _ _ _ _ _ Hstep) as (_ & _ & _ & _ & Habsent).
  by apply Habsent.
Qed.

End RunProperties.

(** ** More on the unbuffered handoff *)

Section HandoffAccounting.

Context {V : Type}.
Implicit Types ch : conduit_channel_t V.
Implicit Types t : thread V.
Implicit Types s : system V.

Lemma thread_step_success ch t ch' effs t' r :
  capacity ch = 0 →
  thread_step ch t = Some (ch', effs, t', r) →
  capacity ch' = 0
  ∧ (success_of r + (if pending_taken ch' then 1 else 0)
     ≤ (if pending_taken ch then 1 else 0) + length (received_of r))%nat.
Proof.
  intros Hcap.
  unfold thread_step, conduit_channel_send, conduit_channel_send_resume,
    conduit_channel_recv, conduit_channel_try_send, conduit_channel_try_recv,
    conduit_channel_close, send_unbuffered_wait, recv_unbuffered_wait.
  rewrite Hcap. destruct t as [w prog]. simpl.
  destruct w as [|v|]; [destruct prog as [|[v| |v| |] rest]|..]; [done|..];
    destruct (closed ch) eqn:Hc, (pending_ready ch) eqn:Hr,
      (pending_taken ch) eqn:Ht; simpl;
    intros [= <- <- <- <-]; simpl; rewrite ?Ht; simpl; split; (done || lia).
Qed.

Lemma sends_succeeded_snoc (tr : list (trace_entry (V:=V))) e :
  sends_succeeded (tr ++ [e]) = (sends_succeeded tr + success_of e.2)%nat.
Proof. unfold sends_succeeded. rewrite sum_list_with_app. simpl. lia. Qed.

Lemma run_success schedule s :
  capacity (chan s) = 0 →
  (sends_succeeded (trace s) + (if pending_taken (chan s) then 1 else 0)
   ≤ length (received (trace s)))%nat →
  (sends_succeeded (trace (run schedule s))
   + (if pending_taken (chan (run schedule s)) then 1 else 0)
   ≤ length (received (trace (run schedule s))))%nat.
Proof.
  revert s. induction schedule as [|i schedule IH]; intros s Hcap Hs; [done|].
  rewrite run_cons. unfold sched_step.
  destruct (threads s !! i) as [t|]; [|by apply IH].
  destruct (thread_step (chan s) t) as [[[[ch' effs] t'] r]|] eqn:Hstep;
    [|by apply IH].
  destruct (thread_step_success _ _ _ _ _ _ Hcap Hstep) as [Hcap' Hle].
  apply IH; [done|]. cbn [chan trace].
  rewrite (sends_succeeded_snoc (trace s)), (received_snoc (trace s)), length_app.
  cbn [snd]. lia.
Qed.

(** X10. On an unbuffered channel a send reports delivery only after a
    receiver has taken a value: from a fresh channel, under every
    interleaving, the number of blocking sends that have returned true never
    exceeds the number of values the receives have returned. *)
Theorem unbuffered_success_needs_receiver r ch0
    (programs : list (list (op V))) schedule :
  conduit_channel_new r = IoOk ch0 →
  let s := run schedule (start ch0 programs) in
  (sends_succeeded (trace s) ≤ length (received (trace s)))%nat.
Proof.
  intros Hnew s.
  assert (capacity ch0 = 0 ∧ pending_taken ch0 = false) as [Hcap Ht].
  { unfold conduit_channel_new in Hnew.
    destruct (malloc_ok r), (mutex_ok r), (not_empty_ok r), (not_full_ok r);
      simplify_eq/=; done. }
  pose proof (run_success schedule (start ch0 programs) Hcap) as Hrun.
  simpl in Hrun. rewrite Ht in Hrun. fold s in Hrun.
  specialize (Hrun ltac:(simpl; lia)). lia.
Qed.

Lemma run_app a b s : run (a ++ b) s = run b (run a s).
Proof. unfold run. by rewrite foldl_app. Qed.

(** One handoff in lock step between a sender (thread 0) and a receiver
    (thread 1): deposit, claim, return. *)
Lemma lockstep_round (v : V) ps pr tr :
  run [0; 1; 0]%nat
      (mkSystem (mkChannel [] 0 0 0 0 None false false false) [mkThread Idle (OpSend v :: ps); mkThread Idle (OpRecv :: pr)] tr)
  = mkSystem (mkChannel [] 0 0 0 0 None false false false) [mkThread Idle ps; mkThread Idle pr]
      (tr ++ [(0%nat, [Signal not_empty], None);
              (1%nat, [Signal not_full], Some (RRecv (Some (Some v))));
              (0%nat, [], Some (RSend true))]).
Proof. simpl. unfold sched_step. simpl. by rewrite <- !app_assoc. Qed.

Lemma lockstep_rounds (values : list V) tr :
  ∃ tr',
    run (mjoin (replicate (length values) [0; 1; 0]%nat))
        (mkSystem (mkChannel [] 0 0 0 0 None false false false) [mkThread Idle (OpSend <$> values);
                         mkThread Idle (replicate (length values) OpRecv)] tr)
    = mkSystem (mkChannel [] 0 0 0 0 None false false false) [mkThread Idle []; mkThread Idle []] tr'
    ∧ received tr' = received tr ++ (Some <$> values)
    ∧ sends_succeeded tr' = (sends_succeeded tr + length values)%nat.
Proof.
  revert tr. induction values as [|v values IH]; intros tr.
  - exists tr. simpl. rewrite app_nil_r. split_and!; (done || lia).
  - change (mjoin (replicate (length (v :: values)) [0; 1; 0]%nat))
      with ([0; 1; 0]%nat ++ mjoin (replicate (length values) [0; 1; 0]%nat)).
    rewrite run_app.
    change (OpSend <$> v :: values) with (OpSend v :: (OpSend <$> values)).
    change (replicate (length (v :: values)) (OpRecv (V:=V)))
      with (OpRecv (V:=V) :: replicate (length values) OpRecv).
    rewrite lockstep_round.
    destruct (IH (tr ++ [(0%nat, [Signal not_empty], None);
              (1%nat, [Signal not_full], Some (RRecv (Some (Some v))));
              (0%nat, [], Some (RSend true))])) as (tr' & -> & Hrecv & Hsucc).
    exists tr'. split; [done|]. split.
    + rewrite Hrecv. unfold received at 1. rewrite bind_app. simpl.
      by rewrite <- app_assoc.
    + rewrite Hsucc. unfold sends_succeeded.
      rewrite sum_list_with_app. simpl. lia.
Qed.

(** X11. Rendezvous in sequence.  On a fresh unbuffered channel, a sender
    and a receiver that take turns (deposit, claim, return) hand over any
    list of values in order: every send returns true, the receives return
    the values as sent, both threads finish, and after the last handoff the
    channel is back in its initial state. *)
Theorem rendezvous_in_lockstep r ch0 (values : list V) :
  conduit_channel_new r = IoOk ch0 →
  let programs := [OpSend <$> values; replicate (length values) OpRecv] in
  let s := run (mjoin (replicate (length values) [0; 1; 0]%nat)) (start ch0 programs) in
  chan s = ch0
  ∧ threads s = [mkThread Idle []; mkThread Idle []]
  ∧ received (trace s) = Some <$> values
  ∧ sends_succeeded (trace s) = length values.
Proof.
  intros Hnew programs s.
  assert (ch0 = mkChannel [] 0 0 0 0 None false false false) as ->.
  { unfold conduit_channel_new in Hnew.
    destruct (malloc_ok r), (mutex_ok r), (not_empty_ok r), (not_full_ok r);
      simplify_eq/=; done. }
  destruct (lockstep_rounds values []) as (tr' & Hrun & Hrecv & Hsucc).
  subst s programs. unfold start. cbn [fmap list_fmap].
  rewrite Hrun. done.
Qed.

End HandoffAccounting.

(** ** The non-blocking calls, the blocking calls and select agree *)

Section Agreement.

Context {V : Type}.
Implicit Types ch : conduit_channel_t V.
Implicit Types h : heap (V:=V).
Implicit Types cases : list (handle * bool).
Implicit Types seen : sightings (V:=V).

(** X12. What [conduit_select_poll] says about a channel is what the
    non-blocking calls then do (when no other thread comes in between): a
    send case is ready exactly when [try_send] would return ok, and a
    receive case is not ready exactly when [try_recv] would return empty. *)
Theorem poll_predicts_try value ch :
  chan_wf ch →
  (case_ready ch true = true
   ↔ (conduit_channel_try_send value ch).2 = TRY_SEND_OK)
  ∧ (case_ready ch false = false
     ↔ (conduit_channel_try_recv ch).2 = TryEmpty).
Proof.
  intros [Hrng _ [Hc0 Hc1] _ _ Hp]. unfold size_t_range in Hrng.
  unfold case_ready, conduit_channel_try_send, conduit_channel_try_recv.
  destruct (closed ch) eqn:Hc, (capacity ch =? 0) eqn:Hcap,
    (capacity ch <=? count ch) eqn:Hfull, (count ch =? 0) eqn:Hempty,
    (0 <? capacity ch) eqn:Hpos, (count ch <? capacity ch) eqn:Hroom,
    (0 <? count ch) eqn:Hsome,
    (pending_ready ch) eqn:Hr, (pending_taken ch) eqn:Ht;
    simpl; bool_guards; try lia;
    try (rewrite Hp in Hr by lia; discriminate);
    split; split; intros; (done || lia).
Qed.

(** X13. [try_recv] is [recv] without the wait: whenever the blocking
    receive would return, the non-blocking one returns the same value (ok)
    or absence (closed) and leaves the same channel with the same signal;
    and it returns empty, changing nothing, exactly where the blocking one
    would park. *)
Theorem try_recv_agrees_with_recv ch :
  pending_consistent ch →
  ∃ ch' effs out,
    conduit_channel_recv ch = (ch', effs, out)
    ∧ conduit_channel_try_recv ch
      = (ch', effs,
         match out with
         | Done (Some p) => TryOk p
         | Done None => TryClosed
         | Blocked _ => TryEmpty
         end)
    ∧ (∀ c, out = Blocked c → ch' = ch ∧ effs = [] ∧ c = not_empty).
Proof.
  unfold pending_consistent, conduit_channel_recv, conduit_channel_try_recv,
    recv_unbuffered_wait, recv_buffered_wait.
  intros Hpc.
  destruct (capacity ch =? 0), (count ch =? 0), (closed ch),
    (pending_ready ch) eqn:Hr, (pending_taken ch) eqn:Ht; simpl;
    try (specialize (Hpc eq_refl); discriminate);
    eexists _, _, _; (split; [reflexivity|]); (split; [reflexivity|]);
    intros c [= <-] || (by intros c); done.
Qed.

(** X14. On a buffered channel [try_send] is [send] without the wait: it
    returns ok with the same channel and signal where the blocking send
    returns true, closed where it returns false, and would-block, releasing
    the value and changing nothing, exactly where it would park. *)
Theorem try_send_agrees_with_send_buffered value ch :
  capacity ch ≠ 0 →
  ∃ ch' effs out,
    conduit_channel_send value ch = (ch', effs, out)
    ∧ conduit_channel_try_send value ch
      = match out with
        | Done true => (ch', effs, TRY_SEND_OK)
        | Done false => (ch', effs, TRY_SEND_CLOSED)
        | Blocked _ => (ch, [LeanDec value], TRY_SEND_WOULD_BLOCK)
        end
    ∧ (∀ c, out = Blocked c → ch' = ch ∧ effs = [] ∧ c = not_full).
Proof.
  intros Hcap. apply Z.eqb_neq in Hcap.
  unfold conduit_channel_send, conduit_channel_try_send, send_buffered_wait.
  rewrite Hcap.
  destruct (closed ch), (capacity ch <=? count ch); simpl;
    eexists _, _, _; (split; [reflexivity|]); (split; [reflexivity|]);
    intros c [= <-] || (by intros c); done.
Qed.

Lemma select_poll_seen_all_closed (seen : nat → heap (V:=V)) cases i :
  (∀ j c, cases !! j = Some c → closed (seen (i + j)%nat c.1) = true) →
  select_poll_seen i seen cases
  = (λ j, (i + j)%nat) <$> (fst <$> list_find (λ c, c.2 = false) cases).
Proof.
  revert i. induction cases as [|[ch_obj is_send] rest IH]; intros i Hclosed;
    [done|].
  simpl. unfold case_ready.
  pose proof (Hclosed 0%nat (ch_obj, is_send) eq_refl) as Hc.
  rewrite Nat.add_0_r in Hc. simpl in Hc. rewrite Hc. simpl.
  destruct is_send; simpl.
  - rewrite (IH (S i)).
    + destruct (list_find _ rest) as [[j c]|]; simpl; [f_equal; lia|done].
    + intros j c Hj. replace (S i + j)%nat with (i + S j)%nat by lia.
      by apply (Hclosed (S j)).
  - rewrite orb_true_r. simpl. f_equal. lia.
Qed.

(** X15. A select over channels that are all closed never sleeps, whatever
    the timeout: a closed channel is never ready for sending and always
    ready for receiving.  So when every channel of the list is closed at
    each moment the first iteration looks at it, [conduit_select_wait]
    returns in that iteration the index of the first receive case of the
    list, or absent when the list has only send cases or is empty; and
    [conduit_select_poll] on a state in which they are all closed returns
    the same. *)
Theorem select_wait_all_closed seen cases timeout_ms fuel :
  size_t_range timeout_ms →
  every_channel_closed (seen 0%nat PollPass) cases →
  every_channel_closed (seen 0%nat ClosedPass) cases →
  conduit_select_wait (S fuel) seen cases timeout_ms
  = Some (fst <$> list_find (λ c, c.2 = false) cases, 0%nat)
  ∧ ∀ h, (∀ j c, cases !! j = Some c → closed (h c.1) = true) →
         conduit_select_poll h cases
         = fst <$> list_find (λ c, c.2 = false) cases.
Proof.
  intros Hrng Hpoll Hclosed. unfold size_t_range in Hrng.
  assert (∀ sn : nat → heap (V:=V), every_channel_closed sn cases →
            select_poll_seen 0 sn cases
            = fst <$> list_find (λ c, c.2 = false) cases) as Hfirst.
  { intros sn Hsn. rewrite select_poll_seen_all_closed by done.
    by destruct (list_find _ cases) as [[j c]|]. }
  split.
  - unfold conduit_select_wait. simpl.
    assert ((timeout_ms =? 0) || (0 <? timeout_ms) = true) as ->.
    { destruct (timeout_ms =? 0) eqn:E; [done|]. bool_guards.
      apply Z.ltb_lt. lia. }
    rewrite (Hfirst _ Hpoll).
    apply all_closed_every in Hclosed. rewrite Hclosed.
    by destruct (list_find _ cases) as [[j c]|].
  - intros h Hh. unfold conduit_select_poll.
    rewrite <- (select_poll_seen_steady (λ _, h) h cases 0) by done.
    by apply Hfirst.
Qed.

End Agreement.

Section LenAccounting.

Context {V : Type}.

(** X16. [len] counts what went in and has not come out: on a buffered
    channel, under every interleaving, the number of values received plus
    [len] equals the initial [len] plus the number of values the channel
    accepted. *)
Theorem len_counts_accepted_minus_received (ch0 : conduit_channel_t V)
    (programs : list (list (op V))) schedule :
  chan_wf ch0 → capacity ch0 ≠ 0 →
  let s := run schedule (start ch0 programs) in
  Z.of_nat (length (received (trace s))) + conduit_channel_len (chan s)
  = conduit_channel_len ch0
    + Z.of_nat (length (accepted schedule (start ch0 programs))).
Proof.
  intros Hwf Hcap s.
  destruct (run_buffered schedule (start ch0 programs) Hwf Hcap)
    as (Hwf' & _ & _ & Hfifo & _).
  fold s in Hfifo, Hwf'.
  apply (f_equal length) in Hfifo.
  rewrite !length_app, length_fmap in Hfifo. simpl in Hfifo.
  unfold conduit_channel_len.
  assert (0 ≤ count ch0) as H0 by (by destruct Hwf as [_ _ [? ?] _ _ _]).
  assert (0 ≤ count (chan s)) as H1 by (by destruct Hwf' as [_ _ [? ?] _ _ _]).
  rewrite <- (contents_length (chan s) H1), <- (contents_length ch0 H0).
  lia.
Qed.

End LenAccounting.

(** * The further properties at work on concrete channels *)

(** Destroying a channel that holds 3 then 1 around the end of the array,
    with 9 left in the pending slot. *)
Lemma finalizer_releases_queue_witness :
  conduit_channel_finalizer 2
    (Some (mkChannel [Some 1; None; Some 3]%nat 3 2 1 2 (Some 9%nat) false false true))
  = Some [DecRef (Some 3%nat); DecRef (Some 1%nat); FreeBuffer;
          DecRef (Some 9%nat);
          DestroyMutex; DestroyCond not_empty; DestroyCond not_full; FreeChannel].
Proof.
  rewrite finalizer_releases_queue; [reflexivity|wf_by_computation|simpl; lia].
Defined.

Lemma sent_then_destroyed_is_released_witness :
  ∃ ch1,
    send_all [10; 20]%nat
      (mkChannel [None; None; None] 3 2 2 0 None false false false)
    = Some ([true; true], ch1)
    ∧ conduit_channel_finalizer 5 (Some ch1)
      = Some [DecRef (Some 10%nat); DecRef (Some 20%nat); FreeBuffer;
              DestroyMutex; DestroyCond not_empty; DestroyCond not_full;
              FreeChannel].
Proof.
  apply (sent_then_destroyed_is_released [10; 20]%nat
           (mkChannel [None; None; None] 3 2 2 0 None false false false) 5).
  - wf_by_computation.
  - simpl; lia.
  - reflexivity.
  - reflexivity.
  - reflexivity.
  - simpl; lia.
  - simpl; lia.
Defined.

(** Two senders and a receiver on a buffered channel of capacity 2: thread
    1 gets in first, so 2 comes out before 1. *)
Lemma buffered_fifo_every_interleaving_witness :
  let ch0 := mkChannel [None; None] 2 0 0 0 None false false false in
  let programs := [[OpSend 1%nat]; [OpSend 2%nat]; [OpRecv; OpRecv]] in
  let s := run [1; 0; 2]%nat (start ch0 programs) in
  received (trace s) ++ contents (chan s) = [Some 2%nat; Some 1%nat].
Proof.
  intros ch0 programs s. subst s.
  rewrite (buffered_fifo_every_interleaving ch0 programs [1; 0; 2]%nat);
    [reflexivity|wf_by_computation|simpl; lia].
Defined.

Lemma buffered_values_conserved_witness :
  let ch0 := mkChannel [None] 1 0 0 0 None false false false in
  let programs := [[OpSend 1%nat; OpTrySend 2%nat]; [OpSend 3%nat]; [OpRecv]] in
  holdings (run [0; 0; 1; 2]%nat (start ch0 programs))
  ≡ₚ [Some 1%nat; Some 2%nat; Some 3%nat].
Proof.
  intros ch0 programs.
  rewrite (buffered_values_conserved ch0 programs [0; 0; 1; 2]%nat);
    [reflexivity|wf_by_computation|simpl; lia].
Defined.


Lemma constructed_channel_stays_well_formed_witness :
  let ch0 := mkChannel [None; None] 2 0 0 0 None false false false in
  let programs := [[OpSend 1; OpSend 2; OpSend 3]; [OpRecv; OpRecv]]%nat in
  let s := run [0; 0; 1; 0; 1; 0]%nat (start ch0 programs) in
  chan_wf (chan s)
  ∧ conduit_channel_capacity (chan s) = 2
  ∧ Z.of_nat (length (buffer (chan s))) = 2
  ∧ (2 ≠ 0 →
       (Z.to_nat (head (chan s)) < length (buffer (chan s)))%nat
       ∧ (Z.to_nat (tail (chan s)) < length (buffer (chan s)))%nat).
Proof.
  intros ch0 programs.
  apply (constructed_channel_stays_well_formed 2 all_ok ch0 programs).
  - unfold size_t_range, SIZE_MAX_plus_1; lia.
  - reflexivity.
Defined.

(** A sender parked on an unbuffered channel that has been closed. *)
Lemma closed_channel_never_parks_witness :
  let ch := mkChannel [] 0 0 0 0 (Some 5%nat) true false true in
  let s := mkSystem ch [mkThread (InSend 5%nat) []; mkThread InRecv []] [] in
  where_ (mkThread Idle ([] : list (op nat))) = Idle
  ∧ closed (chan (sched_step 0 s)) = true.
Proof.
  intros ch s.
  apply (closed_channel_never_parks s 0 (mkThread Idle [])); reflexivity.
Defined.

(** A receiver parked on an empty, open unbuffered channel. *)
Lemma woken_thread_returns_or_changes_nothing_witness :
  let ch := mkChannel [] 0 0 0 0 (None : ptr nat) false false false in
  let s := mkSystem ch [mkThread InRecv []] [] in
  let s' := sched_step 0 s in
  (∃ effs r t', trace s' = trace s ++ [(0%nat, effs, Some r)]
                ∧ threads s' !! 0%nat = Some t' ∧ where_ t' = Idle)
  ∨ (chan s' = chan s ∧ threads s' = threads s
     ∧ trace s' = trace s ++ [(0%nat, [], None)]).
Proof.
  intros ch s.
  apply (woken_thread_returns_or_changes_nothing s 0 (mkThread InRecv []));
    [reflexivity|discriminate].
Defined.

Lemma recv_absent_means_closed_and_drained_witness :
  let ch0 := mkChannel [None; None] 2 0 0 0 (None : ptr nat) false false false in
  let s := run [0]%nat (start ch0 [[OpClose]; [OpRecv]]) in
  conduit_channel_is_closed (chan s) = true
  ∧ conduit_channel_len (chan s) = 0
  ∧ unclaimed (chan s) = false.
Proof.
  intros ch0.
  apply (recv_absent_means_closed_and_drained 2 all_ok ch0 [[OpClose]; [OpRecv]]
           [0]%nat 1 (mkThread Idle [OpRecv])
           (mkChannel [None; None] 2 0 0 0 None false false true) []
           (mkThread Idle [])).
  - unfold size_t_range, SIZE_MAX_plus_1; lia.
  - reflexivity.
  - reflexivity.
  - reflexivity.
Defined.

Lemma unbuffered_success_needs_receiver_witness :
  let ch0 := mkChannel [] 0 0 0 0 None false false false in
  let programs := [[OpSend 1%nat]; [OpSend 2%nat]; [OpRecv]] in
  let s := run [0; 1; 2; 0; 1]%nat (start ch0 programs) in
  (sends_succeeded (trace s) ≤ length (received (trace s)))%nat.
Proof.
  intros ch0 programs.
  apply (unbuffered_success_needs_receiver all_ok ch0 programs). reflexivity.
Defined.

Lemma rendezvous_in_lockstep_witness :
  let ch0 := mkChannel [] 0 0 0 0 None false false false in
  let programs := [OpSend <$> [1; 2; 3]%nat; replicate 3 OpRecv] in
  let s := run [0; 1; 0; 0; 1; 0; 0; 1; 0]%nat (start ch0 programs) in
  chan s = ch0
  ∧ threads s = [mkThread Idle []; mkThread Idle []]
  ∧ received (trace s) = [Some 1; Some 2; Some 3]%nat
  ∧ sends_succeeded (trace s) = 3%nat.
Proof.
  intros ch0 programs.
  apply (rendezvous_in_lockstep all_ok ch0 [1; 2; 3]%nat). reflexivity.
Defined.

Lemma poll_predicts_try_witness :
  let ch := mkChannel [Some 1%nat; None] 2 0 1 1 None false false false in
  (case_ready ch true = true
   ↔ (conduit_channel_try_send 7%nat ch).2 = TRY_SEND_OK)
  ∧ (case_ready ch false = false
     ↔ (conduit_channel_try_recv ch).2 = TryEmpty).
Proof.
  intros ch. apply (poll_predicts_try 7%nat ch). wf_by_computation.
Defined.

(** A closed unbuffered channel on which a deposit is still unclaimed. *)
Lemma try_recv_agrees_with_recv_witness :
  let ch := mkChannel [] 0 0 0 0 (Some 5%nat) true false true in
  conduit_channel_recv ch
  = (set_pending (Some 5%nat) false true ch, [Signal not_full], Done (Some (Some 5%nat)))
  ∧ conduit_channel_try_recv ch
    = (set_pending (Some 5%nat) false true ch, [Signal not_full], TryOk (Some 5%nat)).
Proof.
  intros ch.
  destruct (try_recv_agrees_with_recv ch) as (ch' & effs & out & Hrecv & Htry & _).
  - intros _. reflexivity.
  - assert (ch' = set_pending (Some 5%nat) false true ch
            ∧ effs = [Signal not_full] ∧ out = Done (Some (Some 5%nat)))
      as (-> & -> & ->).
    { vm_compute in Hrecv. by injection Hrecv as <- <- <-. }
    split; [exact Hrecv|exact Htry].
Defined.

Lemma try_send_agrees_with_send_buffered_witness :
  let ch := mkChannel [Some 1; Some 2]%nat 2 0 0 2 None false false false in
  conduit_channel_send 7%nat ch = (ch, [], Blocked not_full)
  ∧ conduit_channel_try_send 7%nat ch
    = (ch, [LeanDec 7%nat], TRY_SEND_WOULD_BLOCK).
Proof.
  intros ch.
  destruct (try_send_agrees_with_send_buffered 7%nat ch)
    as (ch' & effs & out & Hsend & Htry & _); [simpl; lia|].
  assert (ch' = ch ∧ effs = [] ∧ out = Blocked not_full) as (-> & -> & ->).
  { vm_compute in Hsend. by injection Hsend as <- <- <-. }
  split; [exact Hsend|exact Htry].
Defined.

(** A send case and a receive case on two closed channels, waiting without
    a time bound. *)
Lemma select_wait_all_closed_witness :
  let ch := mkChannel [None] 1 0 0 0 (None : ptr nat) false false true in
  let seen := λ (_ : nat) (_ : pass) (_ : nat) (_ : handle), ch in
  let cases := [(0%nat, true); (1%nat, false)] in
  conduit_select_wait 1 seen cases 0 = Some (Some 1%nat, 0%nat)
  ∧ conduit_select_poll (λ _, ch) cases = Some 1%nat.
Proof.
  intros ch seen cases.
  destruct (select_wait_all_closed seen cases 0 0) as [Hwait Hpoll].
  - unfold size_t_range, SIZE_MAX_plus_1; lia.
  - intros j c _. reflexivity.
  - intros j c _. reflexivity.
  - split; [exact Hwait|]. apply Hpoll. intros j c _. reflexivity.
Defined.

Lemma len_counts_accepted_minus_received_witness :
  let ch0 := mkChannel [None; None] 2 0 0 0 None false false false in
  let programs := [[OpSend 1; OpSend 2; OpSend 3]; [OpRecv]]%nat in
  let s := run [0; 0; 0; 1; 0]%nat (start ch0 programs) in
  Z.of_nat (length (received (trace s))) + conduit_channel_len (chan s)
  = conduit_channel_len ch0
    + Z.of_nat (length (accepted [0; 0; 0; 1; 0]%nat (start ch0 programs))).
Proof.
  intros ch0 programs.
  apply (len_counts_accepted_minus_received ch0 programs [0; 0; 0; 1; 0]%nat).
  - wf_by_computation.
  - simpl; lia.
Defined.

(** ** Resources over the life of a channel *)

Section Resources.

Context {V : Type}.
Implicit Types ch : conduit_channel_t V.

(** X17. A constructor that fails leaks nothing and frees nothing twice:
    whatever initialisation fails, every resource obtained before it has
    been given back exactly once when the error is returned; a constructor
    that succeeds holds the structure, the mutex, both condition variables
    and, for a capacity other than 0, the buffer. *)
Theorem failed_construction_leaks_nothing capacity r :
  outstanding [] (conduit_channel_new_buffered_events capacity r)
  = Some match conduit_channel_new_buffered (V:=V) capacity r with
         | IoError _ => []
         | IoOk _ =>
             [RNotFull; RNotEmpty; RMutex]
             ++ (if capacity =? 0 then [] else [RBuffer]) ++ [RChannel]
         end.
Proof.
  unfold conduit_channel_new_buffered_events, conduit_channel_new_buffered,
    conduit_channel_new_events, conduit_channel_new.
  destruct (capacity =? 0);
    destruct (malloc_ok r), (calloc_ok r), (mutex_ok r), (not_empty_ok r),
      (not_full_ok r); reflexivity.
Qed.

Lemma finalizer_gives_back ch fuel :
  chan_wf ch → (Z.to_nat (count ch) ≤ fuel)%nat →
  ∃ steps,
    conduit_channel_finalizer fuel (Some ch) = Some steps
    ∧ steps ≫= teardown_event
      = (if capacity ch =? 0 then [] else [Dispose RBuffer])
        ++ [Dispose RMutex; Dispose RNotEmpty; Dispose RNotFull; Dispose RChannel].
Proof.
  intros Hwf Hfuel. unfold conduit_channel_finalizer.
  assert (∀ ps : list (ptr V), (DecRef <$> ps) ≫= teardown_event = []) as Hdec.
  { induction ps as [|p ps IH]; [done|]. by rewrite fmap_cons, bind_cons, IH. }
  assert (∀ p : ptr V,
            match p with Some v => [DecRef (Some v)] | None => [] end
            ≫= teardown_event = []) as Hpend by (by intros [v|]).
  destruct (buffer ch) as [|p buf] eqn:Hbuf.
  - eexists. split; [reflexivity|].
    assert (capacity ch = 0) as ->.
    { destruct Hwf as [_ Hlen _ _ _ _]. by rewrite Hbuf in Hlen. }
    simpl. rewrite bind_app, Hpend. done.
  - destruct (finalizer_drain_contents _ ch fuel Hwf eq_refl Hfuel)
      as (ch' & -> & _ & _).
    eexists. split; [reflexivity|].
    assert (capacity ch ≠ 0) as Hcap.
    { destruct Hwf as [_ Hlen _ _ _ _]. rewrite Hbuf in Hlen. simpl in Hlen. lia. }
    apply Z.eqb_neq in Hcap as ->.
    rewrite !bind_app, Hdec, Hpend. done.
Qed.

(** X18. Construction and destruction balance.  A channel constructed, used
    by any threads in any order and then destroyed has given back every
    resource it obtained, each exactly once: nothing is left held and nothing
    is freed that is not held. *)
Theorem construct_use_destroy_balances cap r ch0
    (programs : list (list (op V))) schedule fuel :
  size_t_range cap → conduit_channel_new_buffered cap r = IoOk ch0 →
  let s := run schedule (start ch0 programs) in
  (Z.to_nat (count (chan s)) ≤ fuel)%nat →
  ∃ steps,
    conduit_channel_finalizer fuel (Some (chan s)) = Some steps
    ∧ outstanding [] (conduit_channel_new_buffered_events cap r
                      ++ (steps ≫= teardown_event)) = Some [].
Proof.
  intros Hcap Hnew s Hfuel.
  pose proof (new_buffered_wf cap r ch0 Hcap Hnew) as Hwf0.
  destruct (new_buffered_shape cap r ch0 Hnew) as (Hc0 & _ & _).
  assert (chan_wf (chan s)) as Hwf.
  { apply run_invariant; [apply chan_move_wf|done]. }
  assert (capacity (chan s) = cap) as Hc.
  { apply (run_invariant (λ ch, capacity ch = cap)); [|done].
    intros ch ch' Hm <-. by apply chan_move_capacity. }
  destruct (finalizer_gives_back (chan s) fuel Hwf Hfuel) as (steps & Hfin & Hev).
  exists steps. split; [done|]. rewrite Hev, Hc.
  clear -Hnew.
  unfold conduit_channel_new_buffered_events, conduit_channel_new_buffered,
    conduit_channel_new_events, conduit_channel_new in *.
  destruct (cap =? 0);
    destruct (malloc_ok r), (calloc_ok r), (mutex_ok r), (not_empty_ok r),
      (not_full_ok r); simplify_eq/=; reflexivity.
Qed.

End Resources.

Lemma construct_use_destroy_balances_witness :
  let ch0 := mkChannel [None; None] 2 0 0 0 None false false false in
  let programs := [[OpSend 1; OpSend 2]; [OpRecv]]%nat in
  let s := run [0; 0; 1]%nat (start ch0 programs) in
  ∃ steps,
    conduit_channel_finalizer 1 (Some (chan s)) = Some steps
    ∧ outstanding [] (conduit_channel_new_buffered_events 2 all_ok
                      ++ (steps ≫= teardown_event)) = Some [].
Proof.
  intros ch0 programs.
  apply (construct_use_destroy_balances 2 all_ok ch0 programs [0; 0; 1]%nat 1).
  - unfold size_t_range, SIZE_MAX_plus_1; lia.
  - reflexivity.
  - vm_compute; lia.
Defined.
